(** * CommandLine: process execution client (client.py)

    A shallow embedding of [client.py]: the [BytesIO] buffers of a
    [CLIResponse], process-tree termination ([CLIResponse.kill]), the
    module-level cleanup list and its [atexit] hook, [is_running], the
    stream pumps ([read_pipe]) and the execution engine
    ([CommandLineClient._exec_cmd], [exec_cmd], [async_cmd]).

    The operating system is the environment of the program.  It is a
    process table and two pipes; what processes do on their own (write,
    fork, exit) and the passing of time are environment events.

    Two layers.  The termination layer is a state and exception monad
    over the process table and the cleanup list; a schedule of
    environment events says what happens just before each system call,
    so that a statement about all schedules covers every race with
    exiting processes and with other threads unregistering.  The engine
    layer is a transition system with one program counter per thread of
    an invocation; threads are interleaved at their blocking calls and
    system calls, which is where the interpreter hands control to
    another thread.

    What the model leaves out or fixes:
    - the command line is opaque ([shlex.split] and what [Popen] makes
      of it are not modelled; [Popen] either yields a new process or
      raises);
    - a process leaves the table when it ends (no zombies), and the pids
      of an invocation are not reused while it lasts;
    - every process of an invocation holds the write ends of both pipes
      for as long as it lives: end of file is when all of them are gone;
    - a signal that is certain to end its target does so at once; what
      any other signal brings about is left to the environment;
    - an object is destroyed, and its [__del__] called, when the last
      reference to it goes;
    - [self in OBJS_TO_CLEANUP] followed by [remove] is one atomic step,
      and so is a [kill] made by the engine or by the holder of a result
      (its system calls are not interleaved with steps of the invocation);
    - time is a clock that ticks; [time.sleep] and the floating-point
      values of [time.time()] are not modelled;
    - decoding and formatting ([stdout_str], [stderr_str], [__str__],
      [__repr__]) are not modelled. *)

From Stdlib Require Import List ListDec ZArith Lia Bool Arith PeanoNat.
From Stdlib.Strings Require Import Byte.
From Stdlib.Strings Require String.
Import String.StringSyntax.
Delimit Scope string_scope with string.
Import ListNotations.
Local Open Scope nat_scope.

Set Implicit Arguments.

(** ** io.BytesIO *)

Module BytesIO.

Record t := mk { data : list byte; pos : nat }.

(** [BytesIO()] *)
Definition new : t := mk [] 0.

(** [buf.getvalue()]: the whole contents, whatever the position. *)
Definition getvalue (b : t) : list byte := data b.

(** [buf.seek(n)] *)
Definition seek (n : nat) (b : t) : t := mk (data b) n.

(** [buf.truncate()]: cut at the current position; never extends. *)
Definition truncate (b : t) : t := mk (firstn (pos b) (data b)) (pos b).

(** [buf.write(line)]: overwrite from the current position, zero-filling
    a gap left by a seek past the end; writing nothing changes nothing. *)
Definition write (line : list byte) (b : t) : t :=
  match line with
  | [] => b
  | _ =>
      mk (firstn (pos b) (data b)
            ++ repeat x00 (pos b - length (data b))
            ++ line
            ++ skipn (pos b + length line) (data b))
         (pos b + length line)
  end.

(** The position sits at the end of the data: every write appends. *)
Definition at_end (b : t) : Prop := pos b = length (data b).

End BytesIO.

(** ** The operating system seen by the client *)

Definition pid := nat.
Definition objid := nat.

(** The process table: one [(pid, ppid)] entry per existing process. *)
Definition table := list (pid * pid).

Definition init_pid : pid := 1.

Definition exists_pid (t : table) (p : pid) : bool :=
  existsb (fun e => fst e =? p) t.

(** Process [p] is gone: its entry leaves the table and its children are
    adopted by init. *)
Definition os_exit (t : table) (p : pid) : table :=
  map (fun e => if snd e =? p then (fst e, init_pid) else e)
      (filter (fun e => negb (fst e =? p)) t).

Definition ppid_of (t : table) (p : pid) : option pid :=
  option_map snd (find (fun e => fst e =? p) t).

(** [p] has [root] among its ancestors, following at most [fuel] parent
    links. *)
Fixpoint ancestor_b (fuel : nat) (t : table) (p root : pid) : bool :=
  match fuel with
  | 0 => false
  | S fuel' =>
      match ppid_of t p with
      | None => false
      | Some q => (q =? root) || ancestor_b fuel' t q root
      end
  end.

(** [psutil.Process(root).children(recursive=True)], as pids. *)
Definition children_recursive (t : table) (root : pid) : list pid :=
  map fst (filter (fun e => ancestor_b (length t) t (fst e) root) t).

(** Signal numbers ([signal.SIGTERM], [signal.SIGKILL]). *)
Definition SIGTERM : Z := 15.
Definition SIGKILL : Z := 9.

(** The signals that are certain to end their target: SIGKILL on POSIX;
    on Windows [os.kill] terminates the process for every signal but the
    two console events (0 and 1).  What any other signal does is up to
    the target. *)
Definition lethal (is_windows : bool) (sig : Z) : bool :=
  if is_windows then negb (sig =? 0)%Z && negb (sig =? 1)%Z
  else (sig =? SIGKILL)%Z.

(** The effect of a signal on the table.  A signal that is not certain to
    end its target changes nothing by itself: if the target ends because
    of it, that is an exit of the environment. *)
Definition deliver (is_windows : bool) (t : table) (p : pid) (sig : Z) : table :=
  if lethal is_windows sig then os_exit t p else t.

(** ** Exceptions *)

Inductive exn : Set :=
| ProcessLookupError
| NoSuchProcess
| ValueError
| AttributeError
| OSError.

Definition exn_eqb (a b : exn) : bool :=
  match a, b with
  | ProcessLookupError, ProcessLookupError
  | NoSuchProcess, NoSuchProcess
  | ValueError, ValueError
  | AttributeError, AttributeError
  | OSError, OSError => true
  | _, _ => false
  end.

(** ** CLIResponse *)

Record Popen := { popen_pid : pid; popen_returncode : option Z }.

Record CLIResponse := {
  stderr_buf : BytesIO.t;
  stdout_buf : BytesIO.t;
  cmd : String.string;
  proc : option Popen;
  returncode : option Z;
  decode_type : String.string;
  total_time : option nat
}.

(** [CLIResponse.__init__(cmd, returncode=None, proc=None)] *)
Definition CLIResponse_init (c : String.string) (rc : option Z) (p : option Popen)
  : CLIResponse :=
  {| stderr_buf := BytesIO.new;
     stdout_buf := BytesIO.new;
     cmd := c;
     proc := p;
     returncode := rc;
     decode_type := "utf8"%string;
     total_time := None |}.

(** The [stdout] and [stderr] properties. *)
Definition stdout (r : CLIResponse) : list byte := BytesIO.getvalue (stdout_buf r).
Definition stderr (r : CLIResponse) : list byte := BytesIO.getvalue (stderr_buf r).

Definition with_bufs (o e : BytesIO.t) (r : CLIResponse) : CLIResponse :=
  {| stderr_buf := e; stdout_buf := o; cmd := cmd r; proc := proc r;
     returncode := returncode r; decode_type := decode_type r;
     total_time := total_time r |}.

(** [CLIResponse.clear_buffers] *)
Definition clear_buffers (r : CLIResponse) : CLIResponse :=
  let o := BytesIO.truncate (BytesIO.seek 0 (stdout_buf r)) in
  let e := BytesIO.truncate (BytesIO.seek 0 (stderr_buf r)) in
  with_bufs o e r.

(** ** Termination: the system-call layer

    A thread that runs [kill] or [cleanup] sees a process table, the
    module's [OBJS_TO_CLEANUP] list, and an environment schedule: for each
    system call it is about to make, the events that happen just before
    it.  A process may exit, and another thread may take an object off
    the cleanup list. *)

Inductive event :=
| Exited (p : pid)
| Unregistered (o : objid).

Record sys := {
  procs : table;
  OBJS_TO_CLEANUP : list objid;
  env : list (list event)
}.

(** [l.remove(x)] on a Python list: the first occurrence. *)
Fixpoint remove_first (x : objid) (l : list objid) : list objid :=
  match l with
  | [] => []
  | y :: l' => if y =? x then l' else y :: remove_first x l'
  end.

Definition contains (x : objid) (l : list objid) : bool :=
  existsb (fun y => y =? x) l.

Definition apply_event (s : sys) (ev : event) : sys :=
  match ev with
  | Exited p =>
      {| procs := os_exit (procs s) p;
         OBJS_TO_CLEANUP := OBJS_TO_CLEANUP s; env := env s |}
  | Unregistered o =>
      {| procs := procs s;
         OBJS_TO_CLEANUP := remove_first o (OBJS_TO_CLEANUP s); env := env s |}
  end.

(** State and exception monad of the calling thread. *)
Definition M (A : Type) : Type := sys -> (exn + A) * sys.

Definition ret {A} (a : A) : M A := fun s => (inr a, s).

Definition raise {A} (e : exn) : M A := fun s => (inl e, s).

Definition bind {A B} (m : M A) (k : A -> M B) : M B :=
  fun s =>
    match m s with
    | (inl e, s') => (inl e, s')
    | (inr a, s') => k a s'
    end.

Notation "x <- m ;; k" := (bind m (fun x => k))
  (at level 61, m at next level, right associativity).
Notation "m ;;; k" := (bind m (fun _ => k))
  (at level 61, right associativity).

(** [try: body except (classes): handler] *)
Definition try_except {A} (body : M A) (caught : exn -> bool) (handler : M A)
  : M A :=
  fun s =>
    match body s with
    | (inl e, s') => if caught e then handler s' else (inl e, s')
    | ok => ok
    end.

(** [for x in l: body x] *)
Fixpoint for_each {A} (l : list A) (body : A -> M unit) : M unit :=
  match l with
  | [] => ret tt
  | x :: l' => body x ;;; for_each l' body
  end.

(** The environment moves before each system call. *)
Definition env_step : M unit :=
  fun s =>
    match env s with
    | [] => (inr tt, s)
    | evs :: rest =>
        (inr tt,
         fold_left apply_event evs
           {| procs := procs s; OBJS_TO_CLEANUP := OBJS_TO_CLEANUP s;
              env := rest |})
    end.

(** [psutil.Process(p).children(recursive=True)] *)
Definition psutil_children (p : pid) : M (list pid) :=
  env_step ;;;
  fun s =>
    if exists_pid (procs s) p then (inr (children_recursive (procs s) p), s)
    else (inl NoSuchProcess, s).

(** [os.kill(p, sig)] *)
Definition os_kill (is_windows : bool) (p : pid) (sig : Z) : M unit :=
  env_step ;;;
  fun s =>
    if exists_pid (procs s) p then
      (inr tt,
       {| procs := deliver is_windows (procs s) p sig;
          OBJS_TO_CLEANUP := OBJS_TO_CLEANUP s; env := env s |})
    else (inl ProcessLookupError, s).

(** [self in OBJS_TO_CLEANUP] *)
Definition registered (self : objid) : M bool :=
  fun s => (inr (contains self (OBJS_TO_CLEANUP s)), s).

(** [OBJS_TO_CLEANUP.remove(self)] *)
Definition unregister (self : objid) : M unit :=
  fun s =>
    if contains self (OBJS_TO_CLEANUP s) then
      (inr tt,
       {| procs := procs s;
          OBJS_TO_CLEANUP := remove_first self (OBJS_TO_CLEANUP s);
          env := env s |})
    else (inl ValueError, s).

Section Termination.

Variable is_windows : bool.

Definition default_signal : Z := if is_windows then SIGTERM else SIGKILL.

Definition lookup_errors (e : exn) : bool :=
  match e with
  | ProcessLookupError | NoSuchProcess => true
  | _ => false
  end.

(** [CLIResponse.kill(self, sig=None)]; [self] is the object's identity,
    [r] its fields. *)
Definition kill (self : objid) (r : CLIResponse) (sig : option Z) : M unit :=
  match proc r with
  | None => ret tt
  | Some p =>
      let sig :=
        match sig with
        | None => default_signal
        | Some sg => sg
        end in
      try_except
        (ds <- psutil_children (popen_pid p) ;;
         for_each ds (fun d => os_kill is_windows d sig) ;;;
         os_kill is_windows (popen_pid p) sig)
        lookup_errors
        (ret tt) ;;;
      (member <- registered self ;;
       if member then unregister self else ret tt)
  end.


(** [cleanup()]; [heap] gives the fields of the objects on the list. *)
Definition cleanup (heap : objid -> CLIResponse) : M unit :=
  snapshot <- (fun s => (inr (OBJS_TO_CLEANUP s), s)) ;;
  for_each snapshot (fun obj => kill obj (heap obj) None).

End Termination.





(** ** [is_running] *)

(** [os.getpgid(p)]: the module [os] has it on Unix only; the client does
    not use the group it returns. *)
Definition os_getpgid (is_windows : bool) (p : pid) : M unit :=
  if is_windows then raise AttributeError
  else
    env_step ;;;
    fun s =>
      if exists_pid (procs s) p then (inr tt, s)
      else (inl ProcessLookupError, s).

(** The [is_running] property of [CLIResponse]. *)
Definition is_running (is_windows : bool) (r : CLIResponse) : M bool :=
  match proc r with
  | Some p =>
      try_except
        (os_getpgid is_windows (popen_pid p) ;;; ret true)
        (fun e => exn_eqb e ProcessLookupError)
        (ret false)
  | None => ret false
  end.

(** * The execution engine

    One invocation of [exec_cmd] or [async_cmd]: the [CLIResponse] it
    works on, the program's threads (the caller, the thread running
    [_exec_cmd], the one running [target], the two pump threads), and the
    operating system around them. *)

Inductive stream := Stdout | Stderr.

(** Where the caller of [exec_cmd] / [async_cmd] stands. *)
Inductive caller_pc :=
| C_call                 (* about to enter exec_cmd / async_cmd *)
| C_exec                 (* exec_cmd: inside cls._exec_cmd(...) *)
| C_spin                 (* async_cmd: while obj.proc is None: time.sleep(.001) *)
| C_append               (* async_cmd: OBJS_TO_CLEANUP.append(obj) *)
| C_returned             (* the CLIResponse has been handed to the caller *)
| C_raised (e : exn).    (* an exception reached the caller *)

(** Where [_exec_cmd] stands. *)
Inductive engine_pc :=
| E_idle                 (* not called yet *)
| E_start                (* start = time.time() *)
| E_launch               (* if timeout is not None: thread.start() / else: target() *)
| E_target               (* inside the direct call target() *)
| E_join_timeout         (* thread.join(timeout) *)
| E_is_alive             (* if thread.is_alive(): *)
| E_kill                 (* cmd_obj.kill() *)
| E_join                 (* thread.join() *)
| E_returncode           (* cmd_obj.returncode = cmd_obj.proc.returncode *)
| E_total_time           (* cmd_obj.total_time = time.time() - start *)
| E_done                 (* return cmd_obj *)
| E_raised (e : exn).

(** Where [target] stands. *)
Inductive target_pc :=
| T_idle
| T_popen                (* cmd_obj.proc = subprocess.Popen(cmd, **kwargs) *)
| T_pump_out             (* tout = read_pipe(cmd_obj.proc.stdout, cmd_obj.stdout_buf) *)
| T_pump_err             (* terr = read_pipe(cmd_obj.proc.stderr, cmd_obj.stderr_buf) *)
| T_wait                 (* cmd_obj.returncode = cmd_obj.proc.wait() *)
| T_join_out             (* tout.join() *)
| T_join_err             (* terr.join() *)
| T_done
| T_raised (e : exn).

(** A pump thread of [read_pipe]. *)
Inductive pump_pc :=
| P_idle                 (* not started *)
| P_reading              (* for line in iter(pipe.readline, b""): fp_out.write(line) *)
| P_done.                (* readline returned b"": the thread has ended *)

Record config := {
  asynchronous : bool;           (* async_cmd rather than exec_cmd *)
  timeout : option nat;          (* in clock ticks *)
  command : String.string;
  self : objid;                  (* identity of the CLIResponse *)
  is_windows : bool;
  python_pid : pid;              (* the process running the client *)
  registry0 : list objid         (* OBJS_TO_CLEANUP when the call is made *)
}.

Record state := {
  (* the CLIResponse, with its Popen once spawned *)
  obj : CLIResponse;
  (* threads *)
  caller : caller_pc;
  engine : engine_pc;
  worker : target_pc;
  tout : pump_pc;
  terr : pump_pc;
  start : nat;
  deadline : nat;
  (* operating system: the processes of this invocation, the exit status
     of the child once it has exited, the bytes in flight in each pipe *)
  os_procs : table;
  exit_status : option Z;
  out_pipe : list byte;
  err_pipe : list byte;
  clock : nat;
  (* module global *)
  registry : list objid;
  (* history: everything written to each pipe so far, whether the timeout
     branch ran kill, kill calls made since the caller got the object,
     whether clear_buffers was called *)
  written_out : list byte;
  written_err : list byte;
  timed_out : bool;
  kills_since_return : nat;
  cleared : bool
}.

Definition set_obj (v : CLIResponse) (s : state) : state :=
  {|
    obj := v; caller := caller s; engine := engine s; worker := worker s;
    tout := tout s; terr := terr s; start := start s; deadline := deadline s;
    os_procs := os_procs s; exit_status := exit_status s;
    out_pipe := out_pipe s; err_pipe := err_pipe s; clock := clock s;
    registry := registry s; written_out := written_out s;
    written_err := written_err s; timed_out := timed_out s;
    kills_since_return := kills_since_return s; cleared := cleared s
  |}.

Definition set_caller (v : caller_pc) (s : state) : state :=
  {|
    obj := obj s; caller := v; engine := engine s; worker := worker s;
    tout := tout s; terr := terr s; start := start s; deadline := deadline s;
    os_procs := os_procs s; exit_status := exit_status s;
    out_pipe := out_pipe s; err_pipe := err_pipe s; clock := clock s;
    registry := registry s; written_out := written_out s;
    written_err := written_err s; timed_out := timed_out s;
    kills_since_return := kills_since_return s; cleared := cleared s
  |}.

Definition set_engine (v : engine_pc) (s : state) : state :=
  {|
    obj := obj s; caller := caller s; engine := v; worker := worker s;
    tout := tout s; terr := terr s; start := start s; deadline := deadline s;
    os_procs := os_procs s; exit_status := exit_status s;
    out_pipe := out_pipe s; err_pipe := err_pipe s; clock := clock s;
    registry := registry s; written_out := written_out s;
    written_err := written_err s; timed_out := timed_out s;
    kills_since_return := kills_since_return s; cleared := cleared s
  |}.

Definition set_worker (v : target_pc) (s : state) : state :=
  {|
    obj := obj s; caller := caller s; engine := engine s; worker := v;
    tout := tout s; terr := terr s; start := start s; deadline := deadline s;
    os_procs := os_procs s; exit_status := exit_status s;
    out_pipe := out_pipe s; err_pipe := err_pipe s; clock := clock s;
    registry := registry s; written_out := written_out s;
    written_err := written_err s; timed_out := timed_out s;
    kills_since_return := kills_since_return s; cleared := cleared s
  |}.

Definition set_tout (v : pump_pc) (s : state) : state :=
  {|
    obj := obj s; caller := caller s; engine := engine s; worker := worker s;
    tout := v; terr := terr s; start := start s; deadline := deadline s;
    os_procs := os_procs s; exit_status := exit_status s;
    out_pipe := out_pipe s; err_pipe := err_pipe s; clock := clock s;
    registry := registry s; written_out := written_out s;
    written_err := written_err s; timed_out := timed_out s;
    kills_since_return := kills_since_return s; cleared := cleared s
  |}.

Definition set_terr (v : pump_pc) (s : state) : state :=
  {|
    obj := obj s; caller := caller s; engine := engine s; worker := worker s;
    tout := tout s; terr := v; start := start s; deadline := deadline s;
    os_procs := os_procs s; exit_status := exit_status s;
    out_pipe := out_pipe s; err_pipe := err_pipe s; clock := clock s;
    registry := registry s; written_out := written_out s;
    written_err := written_err s; timed_out := timed_out s;
    kills_since_return := kills_since_return s; cleared := cleared s
  |}.

Definition set_start (v : nat) (s : state) : state :=
  {|
    obj := obj s; caller := caller s; engine := engine s; worker := worker s;
    tout := tout s; terr := terr s; start := v; deadline := deadline s;
    os_procs := os_procs s; exit_status := exit_status s;
    out_pipe := out_pipe s; err_pipe := err_pipe s; clock := clock s;
    registry := registry s; written_out := written_out s;
    written_err := written_err s; timed_out := timed_out s;
    kills_since_return := kills_since_return s; cleared := cleared s
  |}.

Definition set_deadline (v : nat) (s : state) : state :=
  {|
    obj := obj s; caller := caller s; engine := engine s; worker := worker s;
    tout := tout s; terr := terr s; start := start s; deadline := v;
    os_procs := os_procs s; exit_status := exit_status s;
    out_pipe := out_pipe s; err_pipe := err_pipe s; clock := clock s;
    registry := registry s; written_out := written_out s;
    written_err := written_err s; timed_out := timed_out s;
    kills_since_return := kills_since_return s; cleared := cleared s
  |}.

Definition set_os_procs (v : table) (s : state) : state :=
  {|
    obj := obj s; caller := caller s; engine := engine s; worker := worker s;
    tout := tout s; terr := terr s; start := start s; deadline := deadline s;
    os_procs := v; exit_status := exit_status s; out_pipe := out_pipe s;
    err_pipe := err_pipe s; clock := clock s; registry := registry s;
    written_out := written_out s; written_err := written_err s;
    timed_out := timed_out s; kills_since_return := kills_since_return s;
    cleared := cleared s
  |}.

Definition set_exit_status (v : option Z) (s : state) : state :=
  {|
    obj := obj s; caller := caller s; engine := engine s; worker := worker s;
    tout := tout s; terr := terr s; start := start s; deadline := deadline s;
    os_procs := os_procs s; exit_status := v; out_pipe := out_pipe s;
    err_pipe := err_pipe s; clock := clock s; registry := registry s;
    written_out := written_out s; written_err := written_err s;
    timed_out := timed_out s; kills_since_return := kills_since_return s;
    cleared := cleared s
  |}.

Definition set_out_pipe (v : list byte) (s : state) : state :=
  {|
    obj := obj s; caller := caller s; engine := engine s; worker := worker s;
    tout := tout s; terr := terr s; start := start s; deadline := deadline s;
    os_procs := os_procs s; exit_status := exit_status s; out_pipe := v;
    err_pipe := err_pipe s; clock := clock s; registry := registry s;
    written_out := written_out s; written_err := written_err s;
    timed_out := timed_out s; kills_since_return := kills_since_return s;
    cleared := cleared s
  |}.

Definition set_err_pipe (v : list byte) (s : state) : state :=
  {|
    obj := obj s; caller := caller s; engine := engine s; worker := worker s;
    tout := tout s; terr := terr s; start := start s; deadline := deadline s;
    os_procs := os_procs s; exit_status := exit_status s;
    out_pipe := out_pipe s; err_pipe := v; clock := clock s;
    registry := registry s; written_out := written_out s;
    written_err := written_err s; timed_out := timed_out s;
    kills_since_return := kills_since_return s; cleared := cleared s
  |}.

Definition set_clock (v : nat) (s : state) : state :=
  {|
    obj := obj s; caller := caller s; engine := engine s; worker := worker s;
    tout := tout s; terr := terr s; start := start s; deadline := deadline s;
    os_procs := os_procs s; exit_status := exit_status s;
    out_pipe := out_pipe s; err_pipe := err_pipe s; clock := v;
    registry := registry s; written_out := written_out s;
    written_err := written_err s; timed_out := timed_out s;
    kills_since_return := kills_since_return s; cleared := cleared s
  |}.

Definition set_registry (v : list objid) (s : state) : state :=
  {|
    obj := obj s; caller := caller s; engine := engine s; worker := worker s;
    tout := tout s; terr := terr s; start := start s; deadline := deadline s;
    os_procs := os_procs s; exit_status := exit_status s;
    out_pipe := out_pipe s; err_pipe := err_pipe s; clock := clock s;
    registry := v; written_out := written_out s;
    written_err := written_err s; timed_out := timed_out s;
    kills_since_return := kills_since_return s; cleared := cleared s
  |}.

Definition set_written_out (v : list byte) (s : state) : state :=
  {|
    obj := obj s; caller := caller s; engine := engine s; worker := worker s;
    tout := tout s; terr := terr s; start := start s; deadline := deadline s;
    os_procs := os_procs s; exit_status := exit_status s;
    out_pipe := out_pipe s; err_pipe := err_pipe s; clock := clock s;
    registry := registry s; written_out := v; written_err := written_err s;
    timed_out := timed_out s; kills_since_return := kills_since_return s;
    cleared := cleared s
  |}.

Definition set_written_err (v : list byte) (s : state) : state :=
  {|
    obj := obj s; caller := caller s; engine := engine s; worker := worker s;
    tout := tout s; terr := terr s; start := start s; deadline := deadline s;
    os_procs := os_procs s; exit_status := exit_status s;
    out_pipe := out_pipe s; err_pipe := err_pipe s; clock := clock s;
    registry := registry s; written_out := written_out s; written_err := v;
    timed_out := timed_out s; kills_since_return := kills_since_return s;
    cleared := cleared s
  |}.

Definition set_timed_out (v : bool) (s : state) : state :=
  {|
    obj := obj s; caller := caller s; engine := engine s; worker := worker s;
    tout := tout s; terr := terr s; start := start s; deadline := deadline s;
    os_procs := os_procs s; exit_status := exit_status s;
    out_pipe := out_pipe s; err_pipe := err_pipe s; clock := clock s;
    registry := registry s; written_out := written_out s;
    written_err := written_err s; timed_out := v;
    kills_since_return := kills_since_return s; cleared := cleared s
  |}.

Definition set_kills_since_return (v : nat) (s : state) : state :=
  {|
    obj := obj s; caller := caller s; engine := engine s; worker := worker s;
    tout := tout s; terr := terr s; start := start s; deadline := deadline s;
    os_procs := os_procs s; exit_status := exit_status s;
    out_pipe := out_pipe s; err_pipe := err_pipe s; clock := clock s;
    registry := registry s; written_out := written_out s;
    written_err := written_err s; timed_out := timed_out s;
    kills_since_return := v; cleared := cleared s
  |}.

Definition set_cleared (v : bool) (s : state) : state :=
  {|
    obj := obj s; caller := caller s; engine := engine s; worker := worker s;
    tout := tout s; terr := terr s; start := start s; deadline := deadline s;
    os_procs := os_procs s; exit_status := exit_status s;
    out_pipe := out_pipe s; err_pipe := err_pipe s; clock := clock s;
    registry := registry s; written_out := written_out s;
    written_err := written_err s; timed_out := timed_out s;
    kills_since_return := kills_since_return s; cleared := v
  |}.

Definition with_proc (p : option Popen) (r : CLIResponse) : CLIResponse :=
  {| stderr_buf := stderr_buf r; stdout_buf := stdout_buf r; cmd := cmd r;
     proc := p; returncode := returncode r; decode_type := decode_type r;
     total_time := total_time r |}.

Definition with_returncode (rc : option Z) (r : CLIResponse) : CLIResponse :=
  {| stderr_buf := stderr_buf r; stdout_buf := stdout_buf r; cmd := cmd r;
     proc := proc r; returncode := rc; decode_type := decode_type r;
     total_time := total_time r |}.

Definition with_total_time (t : option nat) (r : CLIResponse) : CLIResponse :=
  {| stderr_buf := stderr_buf r; stdout_buf := stdout_buf r; cmd := cmd r;
     proc := proc r; returncode := returncode r; decode_type := decode_type r;
     total_time := t |}.

(** The pid tracked by the object, if a process is attached. *)
Definition tracked (r : CLIResponse) : option pid := option_map popen_pid (proc r).

Definition initial (cfg : config) : state :=
  {| obj := CLIResponse_init (command cfg) None None;
     caller := C_call; engine := E_idle; worker := T_idle;
     tout := P_idle; terr := P_idle; start := 0; deadline := 0;
     os_procs := []; exit_status := None; out_pipe := []; err_pipe := [];
     clock := 0; registry := registry0 cfg;
     written_out := []; written_err := [];
     timed_out := false; kills_since_return := 0; cleared := false |}.

(** ** Pipes and [read_pipe] *)

Definition newline : byte := x0a.

(** The first line of [l], newline included, and what follows it. *)
Fixpoint split_line (l : list byte) : option (list byte * list byte) :=
  match l with
  | [] => None
  | b :: l' =>
      if Byte.eqb b newline then Some ([b], l')
      else
        match split_line l' with
        | Some (line, rest) => Some (b :: line, rest)
        | None => None
        end
  end.

(** [pipe.readline()]: a whole line when there is one; at end of file the
    remainder, which is [b""] once the pipe is drained; otherwise the call
    blocks ([None]). *)
Definition readline (pipe : list byte) (eof : bool)
  : option (list byte * list byte) :=
  match split_line pipe with
  | Some lr => Some lr
  | None => if eof then Some (pipe, []) else None
  end.

(** The write ends of both pipes are held by the child and by whatever it
    forked: end of file needs all of them gone. *)
Definition pipes_closed (s : state) : bool :=
  match os_procs s with
  | [] => true
  | _ => false
  end.

(** One turn of the loop of [read_pipe]'s thread. *)
Definition pump_step (st : stream) (s : state) : option state :=
  match st with
  | Stdout =>
      match tout s with
      | P_reading =>
          match readline (out_pipe s) (pipes_closed s) with
          | None => None
          | Some ([], _) => Some (set_tout P_done s)
          | Some (line, rest) =>
              Some (set_out_pipe rest
                      (set_obj (with_bufs (BytesIO.write line (stdout_buf (obj s)))
                                          (stderr_buf (obj s)) (obj s)) s))
          end
      | _ => None
      end
  | Stderr =>
      match terr s with
      | P_reading =>
          match readline (err_pipe s) (pipes_closed s) with
          | None => None
          | Some ([], _) => Some (set_terr P_done s)
          | Some (line, rest) =>
              Some (set_err_pipe rest
                      (set_obj (with_bufs (stdout_buf (obj s))
                                          (BytesIO.write line (stderr_buf (obj s)))
                                          (obj s)) s))
          end
      | _ => None
      end
  end.

(** ** [target] *)

Definition finished (w : target_pc) : bool :=
  match w with
  | T_done | T_raised _ => true
  | _ => false
  end.

(** [subprocess.Popen]: the child [p] exists from now on, or the call
    raises. *)
Definition spawn_step (cfg : config) (r : option pid) (s : state) : option state :=
  match worker s with
  | T_popen =>
      match r with
      | Some p =>
          if exists_pid (os_procs s) p || (p =? init_pid) || (p =? python_pid cfg)
          then None
          else
            Some (set_worker T_pump_out
                    (set_os_procs (os_procs s ++ [(p, python_pid cfg)])
                       (set_obj (with_proc
                                   (Some {| popen_pid := p;
                                            popen_returncode := None |})
                                   (obj s)) s)))
      | None => Some (set_worker (T_raised OSError) s)
      end
  | _ => None
  end.

Definition target_step (s : state) : option state :=
  match worker s with
  | T_pump_out => Some (set_worker T_pump_err (set_tout P_reading s))
  | T_pump_err => Some (set_worker T_wait (set_terr P_reading s))
  | T_wait =>
      match exit_status s, proc (obj s) with
      | Some c, Some p =>
          Some (set_worker T_join_out
                  (set_obj (with_returncode (Some c)
                              (with_proc
                                 (Some {| popen_pid := popen_pid p;
                                          popen_returncode := Some c |})
                                 (obj s))) s))
      | _, _ => None
      end
  | T_join_out =>
      match tout s with
      | P_done => Some (set_worker T_join_err s)
      | _ => None
      end
  | T_join_err =>
      match terr s with
      | P_done => Some (set_worker T_done s)
      | _ => None
      end
  | _ => None
  end.

(** ** [kill] inside the engine *)

(** [Popen.returncode] of a child ended by [sig]. *)
Definition killed_returncode (w : bool) (sig : Z) : Z :=
  if w then sig else (- sig)%Z.

Definition kill_step (cfg : config) (sig : option Z) (s : state)
  : (exn + unit) * state :=
  let '(r, w) :=
    kill (is_windows cfg) (self cfg) (obj s) sig
         {| procs := os_procs s; OBJS_TO_CLEANUP := registry s; env := [] |} in
  let sg :=
    match sig with
    | None => default_signal (is_windows cfg)
    | Some sg => sg
    end in
  let status :=
    match tracked (obj s) with
    | Some p =>
        if exists_pid (os_procs s) p && negb (exists_pid (procs w) p)
        then Some (killed_returncode (is_windows cfg) sg)
        else exit_status s
    | None => exit_status s
    end in
  let n :=
    match caller s with
    | C_returned => S (kills_since_return s)
    | _ => kills_since_return s
    end in
  (r, set_kills_since_return n
        (set_exit_status status
           (set_registry (OBJS_TO_CLEANUP w) (set_os_procs (procs w) s)))).

(** ** [_exec_cmd] *)

Definition engine_step (cfg : config) (s : state) : option state :=
  match engine s with
  | E_start => Some (set_engine E_launch (set_start (clock s) s))
  | E_launch =>
      match timeout cfg with
      | Some t =>
          Some (set_engine E_join_timeout
                  (set_deadline (clock s + t) (set_worker T_popen s)))
      | None => Some (set_engine E_target (set_worker T_popen s))
      end
  | E_target =>
      match worker s with
      | T_done => Some (set_engine E_returncode s)
      | T_raised e => Some (set_engine (E_raised e) s)
      | _ => None
      end
  | E_join_timeout =>
      if finished (worker s) || (deadline s <=? clock s)
      then Some (set_engine E_is_alive s)
      else None
  | E_is_alive =>
      if finished (worker s) then Some (set_engine E_returncode s)
      else Some (set_engine E_kill s)
  | E_kill =>
      match kill_step cfg None s with
      | (inr _, s') => Some (set_engine E_join (set_timed_out true s'))
      | (inl e, s') => Some (set_engine (E_raised e) (set_timed_out true s'))
      end
  | E_join =>
      if finished (worker s) then Some (set_engine E_returncode s) else None
  | E_returncode =>
      match proc (obj s) with
      | Some p =>
          Some (set_engine E_total_time
                  (set_obj (with_returncode (popen_returncode p) (obj s)) s))
      | None => Some (set_engine (E_raised AttributeError) s)
      end
  | E_total_time =>
      Some (set_engine E_done
              (set_obj (with_total_time (Some (clock s - start s)) (obj s)) s))
  | _ => None
  end.

(** ** [exec_cmd] and [async_cmd] *)

Definition caller_step (cfg : config) (s : state) : option state :=
  match caller s with
  | C_call =>
      if asynchronous cfg
      then Some (set_caller C_spin (set_engine E_start s))
      else Some (set_caller C_exec (set_engine E_start s))
  | C_exec =>
      match engine s with
      | E_done => Some (set_caller C_returned s)
      | E_raised e => Some (set_caller (C_raised e) s)
      | _ => None
      end
  | C_spin =>
      match proc (obj s) with
      | None => Some s
      | Some _ => Some (set_caller C_append s)
      end
  | C_append =>
      Some (set_caller C_returned (set_registry (registry s ++ [self cfg]) s))
  | _ => None
  end.

(** ** The environment and the holder of an asynchronous result *)

Definition write_step (p : pid) (st : stream) (chunk : list byte) (s : state)
  : option state :=
  if exists_pid (os_procs s) p then
    match st with
    | Stdout =>
        Some (set_written_out (written_out s ++ chunk)
                (set_out_pipe (out_pipe s ++ chunk) s))
    | Stderr =>
        Some (set_written_err (written_err s ++ chunk)
                (set_err_pipe (err_pipe s ++ chunk) s))
    end
  else None.

Definition fork_step (cfg : config) (p q : pid) (s : state) : option state :=
  if exists_pid (os_procs s) p
     && negb (exists_pid (os_procs s) q)
     && negb (q =? init_pid) && negb (q =? python_pid cfg)
     && negb (match tracked (obj s) with Some r => q =? r | None => false end)
  then Some (set_os_procs (os_procs s ++ [(q, p)]) s)
  else None.

Definition exit_step (p : pid) (code : Z) (s : state) : option state :=
  if exists_pid (os_procs s) p then
    let status :=
      match tracked (obj s) with
      | Some r => if p =? r then Some code else exit_status s
      | None => exit_status s
      end in
    Some (set_exit_status status (set_os_procs (os_exit (os_procs s) p) s))
  else None.

Definition holds_result (cfg : config) (s : state) : bool :=
  asynchronous cfg &&
  match caller s with
  | C_returned => true
  | _ => false
  end.

Inductive label :=
| Caller                                   (* the thread that made the call *)
| Engine                                   (* the thread running _exec_cmd *)
| Spawn (r : option pid)                   (* Popen succeeds or raises *)
| Target                                   (* the statements of target after Popen *)
| Pump (st : stream)
| Tick                                     (* time passes *)
| ProcWrite (p : pid) (st : stream) (chunk : list byte)
| ProcFork (p q : pid)
| ProcExit (p : pid) (code : Z)
| UserKill (sig : option Z)                (* obj.kill(sig) on a returned async result *)
| UserClear.                               (* obj.clear_buffers() likewise *)

Definition step (cfg : config) (l : label) (s : state) : option state :=
  match l with
  | Caller => caller_step cfg s
  | Engine => engine_step cfg s
  | Spawn r => spawn_step cfg r s
  | Target => target_step s
  | Pump st => pump_step st s
  | Tick => Some (set_clock (S (clock s)) s)
  | ProcWrite p st chunk => write_step p st chunk s
  | ProcFork p q => fork_step cfg p q s
  | ProcExit p code => exit_step p code s
  | UserKill sig =>
      if holds_result cfg s then
        match kill_step cfg sig s with
        | (inr _, s') => Some s'
        | (inl e, s') => Some (set_caller (C_raised e) s')
        end
      else None
  | UserClear =>
      if holds_result cfg s
      then Some (set_cleared true (set_obj (clear_buffers (obj s)) s))
      else None
  end.

Fixpoint exec (cfg : config) (ls : list label) (s : state) : option state :=
  match ls with
  | [] => Some s
  | l :: ls' =>
      match step cfg l s with
      | Some s' => exec cfg ls' s'
      | None => None
      end
  end.

(** The states an invocation can be in. *)
Definition reachable (cfg : config) (s : state) : Prop :=
  exists ls, exec cfg ls (initial cfg) = Some s.

(** * Specification vocabulary *)

(** A well-formed table lists each pid once. *)
Definition wf_table (t : table) : Prop := NoDup (map fst t).

(** The final state of a computation is always related by [R] to the
    initial one, whether the computation returns or raises. *)
Definition stable (R : sys -> sys -> Prop) {A} (m : M A) : Prop :=
  forall s, R s (snd (m s)).

(** Exceptions a computation can raise. *)
Definition raises_only (P : exn -> bool) {A} (m : M A) : Prop :=
  forall s e s', m s = (inl e, s') -> P e = true.

(** What termination can change: processes only leave the table and
    objects only leave the cleanup list; a well-formed table stays
    well-formed and a quiet environment stays quiet. *)
Definition shrinks (s s' : sys) : Prop :=
  (forall o, count_occ Nat.eq_dec (OBJS_TO_CLEANUP s') o
             <= count_occ Nat.eq_dec (OBJS_TO_CLEANUP s) o) /\
  (forall q, exists_pid (procs s') q = true -> exists_pid (procs s) q = true) /\
  (wf_table (procs s) -> wf_table (procs s')) /\
  (env s = [] -> env s' = []).

(** The table [kill] leaves when nothing else happens meanwhile: the
    descendants are gone, then the tracked process. *)
Definition table_after_kill (t : table) (root : pid) : table :=
  let t' := fold_left os_exit (children_recursive t root) t in
  if exists_pid t' root then os_exit t' root else t'.

Definition registry_after_kill (self : objid) (reg : list objid) : list objid :=
  if contains self reg then remove_first self reg else reg.

(** [descendant t root p]: [root] is reached from [p] by following parent
    links of the table. *)
Inductive descendant (t : table) (root : pid) : pid -> Prop :=
| descendant_child p :
    ppid_of t p = Some root -> descendant t root p
| descendant_step p q :
    ppid_of t p = Some q -> descendant t root q -> descendant t root p.

(** A chain of parent links from the head of [l] up to [root]. *)
Fixpoint parent_chain (t : table) (l : list pid) (root : pid) : Prop :=
  match l with
  | [] => False
  | p :: l' =>
      match l' with
      | [] => ppid_of t p = Some root
      | q :: _ => ppid_of t p = Some q /\ parent_chain t l' root
      end
  end.

(** In a quiet environment a computation leaves the cleanup list alone. *)
Definition keeps_registry (s s' : sys) : Prop :=
  env s = [] -> OBJS_TO_CLEANUP s' = OBJS_TO_CLEANUP s /\ env s' = [].




(** What has survived of an initial table [t0]: no new process, and the
    parent of a survivor, if it was in [t0], has survived as its parent. *)
Definition survivors (t0 t : table) : Prop :=
  wf_table t /\
  (forall q, exists_pid t q = true -> exists_pid t0 q = true) /\
  (forall q a, exists_pid t q = true -> ppid_of t0 q = Some a ->
               exists_pid t0 a = true ->
               exists_pid t a = true /\ ppid_of t q = Some a).

(** ** Invariant of the engine *)

(** [wait()] has returned: the exit status of the child is recorded on the
    [Popen] and on the [CLIResponse]. *)
Definition observed (s : state) : Prop :=
  exists p c,
    proc (obj s) = Some p /\ popen_returncode p = Some c /\
    returncode (obj s) = Some c /\ exit_status s = Some c.

(** The child exists and [wait()] has not returned yet. *)
Definition running (s : state) : Prop :=
  (exists p, proc (obj s) = Some p /\ popen_returncode p = None) /\
  returncode (obj s) = None.

(** Nothing has been spawned. *)
Definition unspawned (s : state) : Prop :=
  proc (obj s) = None /\ returncode (obj s) = None /\
  tout s = P_idle /\ terr s = P_idle /\
  os_procs s = [] /\ exit_status s = None /\
  out_pipe s = [] /\ err_pipe s = [] /\
  written_out s = [] /\ written_err s = [].

Definition worker_ok (s : state) : Prop :=
  match worker s with
  | T_idle | T_popen => unspawned s
  | T_raised e => e = OSError /\ unspawned s
  | T_pump_out => running s /\ tout s = P_idle /\ terr s = P_idle
  | T_pump_err => running s /\ tout s <> P_idle /\ terr s = P_idle
  | T_wait => running s /\ tout s <> P_idle /\ terr s <> P_idle
  | T_join_out => observed s /\ tout s <> P_idle /\ terr s <> P_idle
  | T_join_err => observed s /\ tout s = P_done /\ terr s <> P_idle
  | T_done => observed s /\ tout s = P_done /\ terr s = P_done
  end.

Definition engine_ok (cfg : config) (s : state) : Prop :=
  match engine s with
  | E_idle | E_start | E_launch => worker s = T_idle
  | E_target => timeout cfg = None /\ worker s <> T_idle
  | E_join_timeout | E_is_alive | E_kill | E_join =>
      timeout cfg <> None /\ worker s <> T_idle
  | E_returncode =>
      worker s = T_done \/ (timeout cfg <> None /\ worker s = T_raised OSError)
  | E_total_time | E_done => worker s = T_done
  | E_raised e =>
      worker s = T_raised OSError /\
      match timeout cfg with
      | None => e = OSError
      | Some _ => e = AttributeError
      end
  end.

Definition caller_ok (cfg : config) (s : state) : Prop :=
  match caller s with
  | C_call =>
      engine s = E_idle /\ registry s = registry0 cfg /\ kills_since_return s = 0
  | C_exec =>
      asynchronous cfg = false /\ engine s <> E_idle /\ kills_since_return s = 0
  | C_spin =>
      asynchronous cfg = true /\ engine s <> E_idle /\ kills_since_return s = 0
  | C_append =>
      asynchronous cfg = true /\ engine s <> E_idle /\ kills_since_return s = 0 /\
      proc (obj s) <> None
  | C_returned =>
      engine s <> E_idle /\
      if asynchronous cfg then proc (obj s) <> None else engine s = E_done
  | C_raised e => asynchronous cfg = false /\ engine s = E_raised e
  end.

Record Inv (cfg : config) (s : state) : Prop := {
  inv_worker : worker_ok s;
  inv_engine : engine_ok cfg s;
  inv_caller : caller_ok cfg s;
  (* total_time is set exactly when _exec_cmd has returned *)
  inv_total_time : total_time (obj s) <> None <-> engine s = E_done;
  (* the child has left the table exactly when its exit status is known *)
  inv_status :
    forall p, tracked (obj s) = Some p ->
              (exists_pid (os_procs s) p = false <-> exit_status s <> None);
  (* a pump ends only on a drained pipe that nobody can write to *)
  inv_tout : tout s = P_done -> out_pipe s = [] /\ os_procs s = [];
  inv_terr : terr s = P_done -> err_pipe s = [] /\ os_procs s = [];
  (* writes to the buffers are appends *)
  inv_out_end : BytesIO.at_end (stdout_buf (obj s));
  inv_err_end : BytesIO.at_end (stderr_buf (obj s));
  (* every byte written is in the buffer or still in the pipe *)
  inv_out_bytes :
    cleared s = false -> written_out s = stdout (obj s) ++ out_pipe s;
  inv_err_bytes :
    cleared s = false -> written_err s = stderr (obj s) ++ err_pipe s;
  (* only the holder of an asynchronous result clears or kills by hand *)
  inv_sync :
    asynchronous cfg = false ->
    cleared s = false /\ (timed_out s = false -> registry s = registry0 cfg);
  (* the object is on the cleanup list from the return of async_cmd to the
     first kill() after it *)
  inv_registered :
    asynchronous cfg = true -> ~ In (self cfg) (registry0 cfg) ->
    count_occ Nat.eq_dec (registry s) (self cfg) =
    match caller s, kills_since_return s with
    | C_returned, 0 => 1
    | _, _ => 0
    end
}.

(** [wait()] has returned in [target]. *)
Definition waited (w : target_pc) : bool :=
  match w with
  | T_join_out | T_join_err | T_done => true
  | _ => false
  end.

(** Who touches the cleanup list: [async_cmd] appends the object when it
    returns, [kill] removes it.  Until a timeout fires or the holder
    kills, the list is the one found at the call, plus the object once
    [async_cmd] has returned. *)
Definition registry_untouched (cfg : config) (s : state) : Prop :=
  (timed_out s = true -> timeout cfg <> None) /\
  (timed_out s = false -> kills_since_return s = 0 ->
   registry s =
   registry0 cfg ++
   match caller s with
   | C_returned => if asynchronous cfg then [self cfg] else []
   | _ => []
   end).

(** Everything of a state that concerns the two output streams. *)
Definition streams (s : state)
  : BytesIO.t * BytesIO.t * list byte * list byte * list byte * list byte :=
  (stdout_buf (obj s), stderr_buf (obj s), out_pipe s, err_pipe s,
   written_out s, written_err s).

(** What one step does to the streams. *)
Definition stream_effect (l : label) (s s' : state) : Prop :=
  match l with
  | Pump Stdout =>
      tout s = P_reading /\
      exists line rest,
        out_pipe s = line ++ rest /\
        streams s' =
        (BytesIO.write line (stdout_buf (obj s)), stderr_buf (obj s),
         rest, err_pipe s, written_out s, written_err s)
  | Pump Stderr =>
      terr s = P_reading /\
      exists line rest,
        err_pipe s = line ++ rest /\
        streams s' =
        (stdout_buf (obj s), BytesIO.write line (stderr_buf (obj s)),
         out_pipe s, rest, written_out s, written_err s)
  | ProcWrite _ Stdout chunk =>
      streams s' =
      (stdout_buf (obj s), stderr_buf (obj s), out_pipe s ++ chunk, err_pipe s,
       written_out s ++ chunk, written_err s)
  | ProcWrite _ Stderr chunk =>
      streams s' =
      (stdout_buf (obj s), stderr_buf (obj s), out_pipe s, err_pipe s ++ chunk,
       written_out s, written_err s ++ chunk)
  | UserClear =>
      streams s' =
      (BytesIO.new, BytesIO.new, out_pipe s, err_pipe s,
       written_out s, written_err s)
  | _ => streams s' = streams s
  end.

(** ** Destruction of a result

    CPython destroys an object, and calls its [__del__], when the last
    reference to it goes.  Besides the variable of its holder, the
    [CLIResponse] of an invocation is referred to by [OBJS_TO_CLEANUP]
    once [async_cmd] has appended it, by the frame of [_exec_cmd] while
    that runs ([cmd_obj]; for [async_cmd] the thread was handed the
    object), and by the closure of [target] while that runs. *)





(** ** Timing of [_exec_cmd] *)

(** [start = time.time()] has run. *)
Definition started (e : engine_pc) : bool :=
  match e with
  | E_idle | E_start => false
  | _ => true
  end.

(** [thread.join(timeout)] has been called (with a timeout, every later
    point of [_exec_cmd] is behind it). *)
Definition joined (e : engine_pc) : bool :=
  match e with
  | E_idle | E_start | E_launch | E_target => false
  | _ => true
  end.

Definition timing_view (s : state)
  : engine_pc * nat * nat * nat * bool * option nat :=
  (engine s, clock s, start s, deadline s, timed_out s, total_time (obj s)).

Definition timing_ok (cfg : config) (s : state) : Prop :=
  (started (engine s) = true -> start s <= clock s) /\
  (forall t, timeout cfg = Some t -> joined (engine s) = true ->
             start s + t <= deadline s) /\
  (engine s = E_kill -> deadline s <= clock s) /\
  (engine s = E_is_alive -> finished (worker s) = false -> deadline s <= clock s) /\
  (timed_out s = true -> joined (engine s) = true /\ deadline s <= clock s) /\
  (forall d, total_time (obj s) = Some d ->
             start s + d <= clock s /\
             (timed_out s = true -> deadline s <= start s + d)).

(** ** Progress of an invocation *)

(** The steps of the program itself, as opposed to those of the processes,
    of the clock and of the holder of the result. *)
Definition own_step (l : label) : bool :=
  match l with
  | Caller | Engine | Target | Pump _ => true
  | _ => false
  end.

Definition target_rank (w : target_pc) : nat :=
  match w with
  | T_idle => 7
  | T_popen => 6
  | T_pump_out => 5
  | T_pump_err => 4
  | T_wait => 3
  | T_join_out => 2
  | T_join_err => 1
  | T_done | T_raised _ => 0
  end.

Definition pump_rank (p : pump_pc) : nat :=
  match p with
  | P_idle => 2
  | P_reading => 1
  | P_done => 0
  end.

Definition engine_rank (e : engine_pc) : nat :=
  match e with
  | E_idle => 11
  | E_start => 10
  | E_launch => 9
  | E_join_timeout => 8
  | E_is_alive => 7
  | E_kill => 6
  | E_target | E_join => 5
  | E_returncode => 4
  | E_total_time => 3
  | E_done | E_raised _ => 0
  end.

(** A bound on the steps [_exec_cmd] and its threads still have to make
    once nothing more is written. *)
Definition remaining (s : state) : nat :=
  target_rank (worker s) + engine_rank (engine s) +
  pump_rank (tout s) + pump_rank (terr s) +
  length (out_pipe s) + length (err_pipe s).

(** * Sample invocations *)

Definition hi : list byte := [x68; x69; x0a].

(** [exec_cmd("echo hi")]: the child writes to both streams and exits. *)
Definition cfg_sync : config :=
  {| asynchronous := false; timeout := None; command := "echo hi"%string;
     self := 7; is_windows := false; python_pid := 2; registry0 := [3] |}.

Definition run_sync : list label :=
  [Caller; Engine; Engine; Spawn (Some 10); Target; Target;
   ProcWrite 10 Stdout hi; ProcWrite 10 Stderr [x21]; Pump Stdout;
   ProcExit 10 0%Z; Target; Pump Stdout; Pump Stderr; Pump Stderr;
   Target; Target; Engine; Engine; Tick; Engine; Caller].

(** [exec_cmd("sh -c 'echo hi; sleep 60 & wait'", timeout=1)]: the child
    forks, the timeout fires and [kill] ends both. *)
Definition cfg_timeout : config :=
  {| asynchronous := false; timeout := Some 1; command := "sleep 60"%string;
     self := 7; is_windows := false; python_pid := 2; registry0 := [3; 7] |}.

Definition run_timeout : list label :=
  [Caller; Engine; Engine; Spawn (Some 10); Target; Target;
   ProcWrite 10 Stdout hi; ProcFork 10 11; Tick; Engine; Engine; Engine;
   Target; Pump Stdout; Pump Stdout; Pump Stderr; Target; Target;
   Engine; Engine; Tick; Engine; Caller].

(** The state a schedule leads to. *)
Definition outcome (cfg : config) (ls : list label) : state :=
  match exec cfg ls (initial cfg) with
  | Some s => s
  | None => initial cfg
  end.

Definition final_sync : state := Eval vm_compute in outcome cfg_sync run_sync.

Definition final_timeout : state :=
  Eval vm_compute in outcome cfg_timeout run_timeout.

(** [async_cmd("no-such-binary", timeout=1)]: [Popen] raises. *)
Definition cfg_async_fail : config :=
  {| asynchronous := true; timeout := Some 1; command := "no-such-binary"%string;
     self := 7; is_windows := false; python_pid := 2; registry0 := [] |}.

Definition run_async_fail : list label :=
  [Caller; Engine; Engine; Caller; Spawn None].

(** What follows: the caller polls, the engine runs into its
    [AttributeError], the caller keeps polling. *)
Definition run_async_poll : list label :=
  [Caller; Tick; Engine; Engine; Engine; Caller; Tick; Caller].

Definition failed_async : state :=
  Eval vm_compute in outcome cfg_async_fail run_async_fail.

Definition polling_async : state :=
  Eval vm_compute in outcome cfg_async_fail (run_async_fail ++ run_async_poll).

(** A process tree: 10 is tracked, 11 and 13 are its children, 12 is a
    child of 11.  Process 11 exits on its own right after the
    enumeration of the descendants. *)
Definition r_tree : CLIResponse :=
  CLIResponse_init "sh tree.sh"%string None
    (Some {| popen_pid := 10; popen_returncode := None |}).

Definition sys_tree : sys :=
  {| procs := [(10, 2); (11, 10); (12, 11); (13, 10)];
     OBJS_TO_CLEANUP := [5; 7; 7];
     env := [[]; [Exited 11]] |}.

(** The same tree with nothing happening on the side. *)
Definition sys_tree_quiet : sys :=
  {| procs := procs sys_tree; OBJS_TO_CLEANUP := [5; 7; 7]; env := [] |}.

(** Two asynchronous results on the cleanup list: object 0 tracks
    process 10 (which has a child), object 1 tracks process 20. *)
Definition heap_two (o : objid) : CLIResponse :=
  CLIResponse_init "sleep 1000"%string None
    (Some {| popen_pid := 10 + 10 * o; popen_returncode := None |}).

Definition sys_two : sys :=
  {| procs := [(10, 2); (11, 10); (20, 2)];
     OBJS_TO_CLEANUP := [0; 1];
     env := [] |}.

(** * More sample invocations *)

(** [async_cmd("echo hi")]: the child writes and exits by itself. *)
Definition cfg_async : config :=
  {| asynchronous := true; timeout := None; command := "echo hi"%string;
     self := 7; is_windows := false; python_pid := 2; registry0 := [3] |}.

(** Up to the return of [wait()] in [target]. *)
Definition run_async_waited : list label :=
  [Caller; Engine; Engine; Spawn (Some 10); Caller; Caller; Target; Target;
   ProcWrite 10 Stdout hi; ProcExit 10 0%Z; Target].

(** The pumps drain the pipes and [_exec_cmd] returns. *)
Definition run_async_finish : list label :=
  [Pump Stdout; Pump Stdout; Pump Stderr; Target; Target;
   Engine; Engine; Engine].

Definition waited_async : state :=
  Eval vm_compute in outcome cfg_async run_async_waited.

Definition final_async : state :=
  Eval vm_compute in outcome cfg_async (run_async_waited ++ run_async_finish).

(** The holder clears the buffers while the child is running; the child
    then writes again. *)
Definition run_async_running : list label :=
  [Caller; Engine; Engine; Spawn (Some 10); Caller; Caller; Target; Target;
   ProcWrite 10 Stdout hi; Pump Stdout].

Definition run_async_more : list label :=
  [ProcWrite 10 Stdout [x6f; x6b; x0a]; Pump Stdout].

Definition running_async : state :=
  Eval vm_compute in outcome cfg_async run_async_running.

Definition cleared_async : state :=
  Eval vm_compute in outcome cfg_async (run_async_running ++ [UserClear]).

Definition more_async : state :=
  Eval vm_compute in
    outcome cfg_async (run_async_running ++ [UserClear] ++ run_async_more).




(** The shutdown of a program that holds one asynchronous result, on the
    process tree of [sys_tree]. *)
Definition sys_tree_exit : sys :=
  {| procs := procs sys_tree; OBJS_TO_CLEANUP := [7]; env := env sys_tree |}.

(** * Proof automation *)

Ltac unfold_inv :=
  unfold worker_ok, engine_ok, caller_ok, unspawned, running, observed,
    tracked, BytesIO.at_end, stdout, stderr, BytesIO.getvalue in *.

Ltac break_hyps :=
  repeat match goal with
         | H : _ /\ _ |- _ => destruct H
         | H : exists _, _ |- _ => destruct H
         | H : Some _ = Some _ |- _ => inversion H; subst; clear H
         | H : Some _ = None |- _ => discriminate H
         | H : None = Some _ |- _ => discriminate H
         end.

Ltac open_state s :=
  let o := fresh "o" in
  destruct s as [o c e w to te st dl ps xs op ep ck rg wo we tmo ks cl];
  destruct o as [eb ob cm pr rc dt tt].


Ltac inv_split := constructor; unfold_inv; simpl; try assumption.

Ltac easy_goal :=
  try solve [break_hyps; subst; simpl in *; intuition (congruence || discriminate)].

Ltac use_mode :=
  repeat match goal with
         | H : asynchronous _ = _ |- _ => rewrite H in *
         | H : timeout _ = _ |- _ => rewrite H in *
         end.

Ltac mode_goal :=
  try solve [break_hyps; subst; use_mode; simpl in *;
             intuition (congruence || discriminate)].

Ltac ex_goal :=
  try solve [break_hyps; subst; use_mode; simpl in *;
             intuition (eauto 8; congruence || discriminate)].

Ltac case_goal :=
  try solve [match goal with
             | |- match ?x with _ => _ end => destruct x
             end;
             simpl in *; break_hyps; subst; use_mode; simpl in *;
             intuition (eauto 8; congruence || discriminate)].

Ltac mode_case_goal :=
  try solve [match goal with
             | |- match ?x with _ => _ end => destruct x
             end;
             match goal with
             | cfg : config |- _ =>
                 destruct (asynchronous cfg) eqn:?; destruct (timeout cfg) eqn:?
             end;
             simpl in *; break_hyps; subst; simpl in *;
             intuition (eauto 8; congruence || discriminate)].

Ltac step_done H :=
  inversion H; subst; clear H; inv_split;
  easy_goal; mode_goal; ex_goal; case_goal; mode_case_goal.

Ltac open_streams E :=
  unfold streams in E; inversion E; clear E;
  unfold stdout, stderr, BytesIO.getvalue.

Ltac use_streams :=
  repeat match goal with
         | K : ?l = _ |- context [?l] => rewrite K
         end.

Ltac same_bytes := rewrite ?app_nil_r; repeat split; congruence.

Ltac timing_fin :=
  unfold timing_ok; simpl; repeat split; intros;
  try discriminate;
  repeat match goal with
         | A : ?x = Some _, B : ?x = Some _ |- _ => rewrite A in B
         | A : ?x = None, B : ?x = Some _ |- _ => rewrite A in B
         | X : Some _ = Some _ |- _ => inversion X; subst; clear X
         | X : total_time _ = Some ?d,
           H6 : forall d, total_time _ = Some d -> _ |- _ =>
             destruct (H6 d X) as [? ?]; clear H6
         | Hf : finished ?w = false, Ej : finished ?w || _ = true |- _ =>
             rewrite Hf in Ej; simpl in Ej; apply Nat.leb_le in Ej
         | T : timed_out ?s = true, H5 : timed_out ?s = true -> _ |- _ =>
             destruct (H5 T) as [? ?]; clear H5
         | X : ?a = ?a -> _ |- _ => specialize (X eq_refl)
         end;
  try discriminate; try congruence; try lia; auto.


(** * Facts about the process table and the cleanup list *)

Lemma exists_pid_true t q :
  exists_pid t q = true <-> In q (map fst t).
Proof.
  unfold exists_pid. rewrite existsb_exists, in_map_iff. split.
  - intros [e [He Hq]]. apply Nat.eqb_eq in Hq. now exists e.
  - intros [e [Hq He]]. exists e. split; [assumption|]. now apply Nat.eqb_eq.
Qed.

Lemma os_exit_pids t p :
  map fst (os_exit t p) = filter (fun a => negb (a =? p)) (map fst t).
Proof.
  unfold os_exit. induction t as [|[a b] t IH]; simpl; [reflexivity|].
  destruct (a =? p); simpl; [assumption|].
  rewrite IH. now destruct (b =? p).
Qed.

Lemma exists_pid_os_exit t p q :
  exists_pid (os_exit t p) q = negb (q =? p) && exists_pid t q.
Proof.
  apply eq_true_iff_eq.
  rewrite andb_true_iff, negb_true_iff, Nat.eqb_neq, !exists_pid_true.
  rewrite os_exit_pids, filter_In, negb_true_iff, Nat.eqb_neq. tauto.
Qed.

Lemma exists_pid_fold_exit ds t q :
  exists_pid (fold_left os_exit ds t) q = true <->
  exists_pid t q = true /\ ~ In q ds.
Proof.
  revert t. induction ds as [|d ds IH]; intros t; simpl.
  - tauto.
  - rewrite IH, exists_pid_os_exit, andb_true_iff, negb_true_iff, Nat.eqb_neq.
    intuition congruence.
Qed.


Lemma NoDup_filter {A} (f : A -> bool) (l : list A) :
  NoDup l -> NoDup (filter f l).
Proof.
  induction 1 as [|a l Hn Hd IH]; simpl; [constructor|].
  destruct (f a); [|assumption].
  constructor; [|assumption]. rewrite filter_In. tauto.
Qed.

Lemma wf_os_exit t p : wf_table t -> wf_table (os_exit t p).
Proof. unfold wf_table. rewrite os_exit_pids. apply NoDup_filter. Qed.

Lemma wf_fold_exit ds t : wf_table t -> wf_table (fold_left os_exit ds t).
Proof.
  revert t. induction ds as [|d ds IH]; intros t Ht; simpl; [assumption|].
  apply IH. now apply wf_os_exit.
Qed.

Lemma children_recursive_exist t root d :
  In d (children_recursive t root) -> exists_pid t d = true.
Proof.
  unfold children_recursive. rewrite in_map_iff.
  intros [e [Hd He]]. apply filter_In in He. apply exists_pid_true.
  rewrite <- Hd. apply in_map. tauto.
Qed.

Lemma children_recursive_NoDup t root :
  wf_table t -> NoDup (children_recursive t root).
Proof.
  unfold wf_table, children_recursive.
  generalize (fun e : pid * pid => ancestor_b (length t) t (fst e) root).
  intros f. induction t as [|e t IH]; simpl; intros Hn; [constructor|].
  inversion Hn as [|? ? Hin Hn']; subst.
  destruct (f e); simpl; [|now apply IH].
  constructor; [|now apply IH].
  rewrite in_map_iff. intros [e' [He' Hf]]. apply filter_In in Hf.
  apply Hin. rewrite <- He'. apply in_map. tauto.
Qed.

Lemma contains_true x l : contains x l = true <-> In x l.
Proof.
  unfold contains. rewrite existsb_exists. split.
  - intros [y [Hy E]]. apply Nat.eqb_eq in E. now subst.
  - intros H. exists x. split; [assumption|apply Nat.eqb_refl].
Qed.

Lemma contains_false x l : contains x l = false <-> ~ In x l.
Proof.
  rewrite <- contains_true. destruct (contains x l); split; intros; congruence.
Qed.

Lemma count_remove_first x o l :
  count_occ Nat.eq_dec (remove_first x l) o =
  if o =? x then pred (count_occ Nat.eq_dec l o) else count_occ Nat.eq_dec l o.
Proof.
  induction l as [|y l IH]; simpl.
  - now destruct (o =? x).
  - destruct (Nat.eqb_spec y x) as [->|Hyx].
    + destruct (Nat.eq_dec x o) as [->|Hxo].
      * now rewrite Nat.eqb_refl.
      * destruct (Nat.eqb_spec o x); [congruence|reflexivity].
    + simpl. rewrite IH. destruct (Nat.eq_dec y o) as [->|Hyo].
      * destruct (Nat.eqb_spec o x); [congruence|reflexivity].
      * reflexivity.
Qed.

Lemma count_remove_first_le x o l :
  count_occ Nat.eq_dec (remove_first x l) o <= count_occ Nat.eq_dec l o.
Proof. rewrite count_remove_first. destruct (o =? x); lia. Qed.

(** * Reasoning about computations in [M] *)

Section Stable.

Variable R : sys -> sys -> Prop.
Hypothesis R_refl : forall s, R s s.
Hypothesis R_trans : forall a b c, R a b -> R b c -> R a c.


Lemma stable_ret {A} (a : A) : stable R (ret a).
Proof. intros s. apply R_refl. Qed.

Lemma stable_bind {A B} (m : M A) (k : A -> M B) :
  stable R m -> (forall a, stable R (k a)) -> stable R (bind m k).
Proof.
  intros Hm Hk s. unfold bind. specialize (Hm s).
  destruct (m s) as [[e|a] s']; simpl in *; [assumption|].
  eapply R_trans; [eassumption|apply Hk].
Qed.

Lemma stable_try {A} (body handler : M A) caught :
  stable R body -> stable R handler -> stable R (try_except body caught handler).
Proof.
  intros Hb Hh s. unfold try_except. specialize (Hb s).
  destruct (body s) as [[e|a] s']; simpl in *; [|assumption].
  destruct (caught e); simpl; [|assumption].
  eapply R_trans; [eassumption|apply Hh].
Qed.

Lemma stable_for_each {A} (l : list A) (body : A -> M unit) :
  (forall x, stable R (body x)) -> stable R (for_each l body).
Proof.
  intros Hb. induction l as [|x l IH]; simpl.
  - apply stable_ret.
  - apply stable_bind; [apply Hb|intros _; apply IH].
Qed.

End Stable.


Lemma raises_only_bind P {A B} (m : M A) (k : A -> M B) :
  raises_only P m -> (forall a, raises_only P (k a)) -> raises_only P (bind m k).
Proof.
  intros Hm Hk s e s'. unfold bind.
  destruct (m s) as [[e0|a] s0] eqn:E.
  - intros H. inversion H; subst. eapply Hm; eassumption.
  - apply Hk.
Qed.

Lemma raises_only_for_each P {A} (l : list A) (body : A -> M unit) :
  (forall x, raises_only P (body x)) -> raises_only P (for_each l body).
Proof.
  intros Hb. induction l as [|x l IH]; simpl.
  - intros s e s' H. discriminate.
  - apply raises_only_bind; [apply Hb|intros _; apply IH].
Qed.

Lemma env_step_returns s : fst (env_step s) = inr tt.
Proof. unfold env_step. now destruct (env s). Qed.

Lemma raises_only_os_kill w p sig : raises_only lookup_errors (os_kill w p sig).
Proof.
  intros s e s'. unfold os_kill, bind.
  pose proof (env_step_returns s) as Hr.
  destruct (env_step s) as [[e0|[]] s0]; simpl in Hr; [discriminate|].
  destruct (exists_pid (procs s0) p); intros H; inversion H. reflexivity.
Qed.

Lemma raises_only_psutil_children p : raises_only lookup_errors (psutil_children p).
Proof.
  intros s e s'. unfold psutil_children, bind.
  pose proof (env_step_returns s) as Hr.
  destruct (env_step s) as [[e0|[]] s0]; simpl in Hr; [discriminate|].
  destruct (exists_pid (procs s0) p); intros H; inversion H. reflexivity.
Qed.

Lemma try_except_returns {A} (body handler : M A) caught :
  raises_only caught body ->
  (forall s, exists a, fst (handler s) = inr a) ->
  forall s, exists a, fst (try_except body caught handler s) = inr a.
Proof.
  intros Hb Hh s. unfold try_except.
  destruct (body s) as [[e|a] s'] eqn:E.
  - rewrite (Hb _ _ _ E). apply Hh.
  - now exists a.
Qed.

(** The membership test guards the removal: the pair never raises. *)
Lemma unregister_guarded_returns self s :
  fst ((member <- registered self ;;
        if member then unregister self else ret tt) s) = inr tt.
Proof.
  unfold bind, registered, unregister. simpl.
  destruct (contains self (OBJS_TO_CLEANUP s)) eqn:E; simpl; [|reflexivity].
  now rewrite E.
Qed.

(** The guarded block of [kill] ends normally: what its system calls
    raise is what its handler catches. *)
Lemma kill_try_returns w root sig s :
  exists s',
    try_except
      (ds <- psutil_children root ;;
       for_each ds (fun d => os_kill w d sig) ;;;
       os_kill w root sig)
      lookup_errors (ret tt) s = (inr tt, s').
Proof.
  match goal with
  | |- context [try_except ?b ?c ?h s] =>
      destruct (@try_except_returns unit b h c) with (s := s) as [[] Ht]
  end.
  - apply raises_only_bind; [apply raises_only_psutil_children|].
    intros ds. apply raises_only_bind; [|intros _; apply raises_only_os_kill].
    apply raises_only_for_each. intros d. apply raises_only_os_kill.
  - intros s0. now exists tt.
  - match type of Ht with
    | fst ?x = _ => destruct x as [[e|[]] s1]; simpl in Ht; [discriminate|]
    end.
    now exists s1.
Qed.

(** [kill] returns normally from every state, whatever the environment
    does between its system calls. *)
Lemma kill_returns w self r sig s : fst (kill w self r sig s) = inr tt.
Proof.
  unfold kill. destruct (proc r) as [p|]; [|reflexivity].
  unfold bind at 1.
  match goal with
  | |- context [try_except ?b ?c ?h s] =>
      destruct (kill_try_returns w (popen_pid p)
                  (match sig with None => default_signal w | Some sg => sg end) s)
        as [s1 Ht]
  end.
  rewrite Ht. apply unregister_guarded_returns.
Qed.



(** ** What termination can change *)


Lemma shrinks_refl s : shrinks s s.
Proof. unfold shrinks. auto. Qed.

Lemma shrinks_trans a b c : shrinks a b -> shrinks b c -> shrinks a c.
Proof.
  intros (H1 & H2 & H3 & H4) (G1 & G2 & G3 & G4). repeat split; auto.
  intros o. specialize (H1 o). specialize (G1 o). lia.
Qed.

Lemma shrinks_event s ev :
  shrinks s (apply_event s ev) /\ env (apply_event s ev) = env s.
Proof.
  destruct ev as [p|o]; simpl; (split; [|reflexivity]); repeat split; simpl; auto.
  - intros q. rewrite exists_pid_os_exit, andb_true_iff. tauto.
  - apply wf_os_exit.
  - intros o'. apply count_remove_first_le.
Qed.

Lemma shrinks_events evs s :
  shrinks s (fold_left apply_event evs s) /\
  env (fold_left apply_event evs s) = env s.
Proof.
  revert s. induction evs as [|ev evs IH]; intros s; simpl.
  - split; [apply shrinks_refl|reflexivity].
  - destruct (IH (apply_event s ev)) as [H1 H2].
    destruct (shrinks_event s ev) as [G1 G2]. split.
    + eapply shrinks_trans; eassumption.
    + congruence.
Qed.

Lemma stable_env_step : stable shrinks env_step.
Proof.
  intros s. unfold env_step. destruct (env s) as [|evs rest] eqn:E; simpl.
  - apply shrinks_refl.
  - match goal with
    | |- shrinks _ (fold_left _ _ ?s0) =>
        destruct (shrinks_events evs s0) as [(H1 & H2 & H3 & H4) _]
    end.
    simpl in *. repeat split; auto. congruence.
Qed.

Lemma stable_os_kill w p sig : stable shrinks (os_kill w p sig).
Proof.
  unfold os_kill.
  apply stable_bind; [apply shrinks_trans|apply stable_env_step|].
  intros _ s. destruct (exists_pid (procs s) p); simpl; [|apply shrinks_refl].
  unfold deliver. destruct (lethal w sig); repeat split; simpl; auto.
  - intros q. rewrite exists_pid_os_exit, andb_true_iff. tauto.
  - apply wf_os_exit.
Qed.

Lemma stable_psutil_children p : stable shrinks (psutil_children p).
Proof.
  unfold psutil_children.
  apply stable_bind; [apply shrinks_trans|apply stable_env_step|].
  intros _ s. destruct (exists_pid (procs s) p); simpl; apply shrinks_refl.
Qed.

Lemma stable_unregister_guarded self :
  stable shrinks (member <- registered self ;;
                  if member then unregister self else ret tt).
Proof.
  intros s. unfold bind, registered, unregister. simpl.
  destruct (contains self (OBJS_TO_CLEANUP s)) eqn:E; simpl;
    [rewrite E; simpl|apply shrinks_refl].
  repeat split; simpl; auto. intros o. apply count_remove_first_le.
Qed.

Lemma stable_kill w self r sig : stable shrinks (kill w self r sig).
Proof.
  unfold kill. destruct (proc r) as [p|].
  - apply stable_bind; [apply shrinks_trans| |intros _; apply stable_unregister_guarded].
    apply stable_try; [apply shrinks_trans| |apply stable_ret, shrinks_refl].
    apply stable_bind; [apply shrinks_trans|apply stable_psutil_children|].
    intros ds. apply stable_bind; [apply shrinks_trans| |intros _; apply stable_os_kill].
    apply stable_for_each; [apply shrinks_refl|apply shrinks_trans|].
    intros d. apply stable_os_kill.
  - apply stable_ret, shrinks_refl.
Qed.

(** ** Termination in a quiet environment *)

Lemma lethal_default w : lethal w (default_signal w) = true.
Proof. now destruct w. Qed.

Lemma os_kill_quiet w p sig t reg :
  os_kill w p sig (Build_sys t reg []) =
  if exists_pid t p then (inr tt, Build_sys (deliver w t p sig) reg [])
  else (inl ProcessLookupError, Build_sys t reg []).
Proof. reflexivity. Qed.

Lemma for_each_os_kill_quiet w sig ds :
  lethal w sig = true ->
  forall t reg,
    NoDup ds ->
    (forall d, In d ds -> exists_pid t d = true) ->
    for_each ds (fun d => os_kill w d sig) (Build_sys t reg []) =
    (inr tt, Build_sys (fold_left os_exit ds t) reg []).
Proof.
  intros Hl. induction ds as [|d ds IH]; intros t reg Hn Hex; simpl.
  - reflexivity.
  - inversion Hn as [|? ? Hnin Hn']; subst.
    unfold bind. rewrite os_kill_quiet, (Hex d) by (now left).
    unfold deliver. rewrite Hl. apply IH; [assumption|].
    intros d' Hd'. rewrite exists_pid_os_exit, (Hex d') by (now right).
    rewrite andb_true_r, negb_true_iff, Nat.eqb_neq. congruence.
Qed.


Lemma kill_quiet w self r sig p t reg :
  proc r = Some p ->
  lethal w (match sig with None => default_signal w | Some sg => sg end) = true ->
  wf_table t ->
  exists_pid t (popen_pid p) = true ->
  kill w self r sig (Build_sys t reg []) =
  (inr tt,
   Build_sys (table_after_kill t (popen_pid p)) (registry_after_kill self reg) []).
Proof.
  intros Hp Hl Hwf Hex. unfold kill. rewrite Hp.
  set (sg := match sig with None => default_signal w | Some sg => sg end) in *.
  unfold bind at 1, try_except, bind at 1, psutil_children, bind at 1. simpl.
  rewrite Hex. unfold bind at 1.
  rewrite (@for_each_os_kill_quiet w sg _ Hl);
    [|now apply children_recursive_NoDup|intros d; apply children_recursive_exist].
  rewrite os_kill_quiet. unfold table_after_kill, registry_after_kill.
  destruct (exists_pid (fold_left os_exit (children_recursive t (popen_pid p)) t)
              (popen_pid p)) eqn:E; simpl.
  - unfold bind, registered, unregister, deliver. simpl. rewrite Hl.
    destruct (contains self reg) eqn:C; simpl; [rewrite C|]; reflexivity.
  - unfold bind, registered, unregister. simpl.
    destruct (contains self reg) eqn:C; simpl; [rewrite C|]; reflexivity.
Qed.

Lemma table_after_kill_gone t root q :
  In q (root :: children_recursive t root) ->
  exists_pid (table_after_kill t root) q = false.
Proof.
  intros Hq. unfold table_after_kill.
  set (t' := fold_left os_exit (children_recursive t root) t).
  assert (Hd : forall d, In d (children_recursive t root) -> exists_pid t' d = false).
  { intros d Hd. apply not_true_is_false. unfold t'.
    rewrite exists_pid_fold_exit. tauto. }
  destruct (exists_pid t' root) eqn:E.
  - rewrite exists_pid_os_exit. destruct Hq as [<-|Hq].
    + now rewrite Nat.eqb_refl.
    + rewrite (Hd q Hq). apply andb_false_r.
  - destruct Hq as [<-|Hq]; auto.
Qed.

(** Without a live tracked process there is nothing to signal. *)
Lemma kill_quiet_gone w self r sig p t reg :
  proc r = Some p ->
  exists_pid t (popen_pid p) = false ->
  kill w self r sig (Build_sys t reg []) =
  (inr tt, Build_sys t (registry_after_kill self reg) []).
Proof.
  intros Hp Hex. unfold kill. rewrite Hp.
  unfold bind at 1, try_except, bind at 1, psutil_children, bind at 1. simpl.
  rewrite Hex. simpl. unfold bind, registered, unregister, registry_after_kill.
  simpl. destruct (contains self reg) eqn:C; simpl; [rewrite C|]; reflexivity.
Qed.

(** ** Descendants

    [descendant t root p]: [root] is reached from [p] by following parent
    links of the table.  [children_recursive] lists exactly these. *)


Lemma ppid_of_exists t p q : ppid_of t p = Some q -> In p (map fst t).
Proof.
  unfold ppid_of. destruct (find (fun e => fst e =? p) t) as [e|] eqn:E;
    [|discriminate].
  intros _. apply find_some in E. destruct E as [He Hp].
  apply Nat.eqb_eq in Hp. rewrite <- Hp. now apply in_map.
Qed.

Lemma descendant_chain t root p :
  descendant t root p -> exists l, parent_chain t (p :: l) root.
Proof.
  induction 1 as [p Hp|p q Hp Hd [l IH]].
  - now exists [].
  - exists (q :: l). simpl. split; assumption.
Qed.

Lemma chain_ancestor t root l :
  forall p n, parent_chain t (p :: l) root -> length (p :: l) <= n ->
              ancestor_b n t p root = true.
Proof.
  induction l as [|q l IH]; intros p n Hc Hn; simpl in *.
  - destruct n as [|n]; [lia|]. simpl. rewrite Hc, Nat.eqb_refl. reflexivity.
  - destruct n as [|n]; [lia|]. destruct Hc as [Hp Hc]. simpl. rewrite Hp.
    rewrite (IH q n Hc) by lia. apply orb_true_r.
Qed.

Lemma ancestor_descendant t root n :
  forall p, ancestor_b n t p root = true -> descendant t root p.
Proof.
  induction n as [|n IH]; intros p; simpl; [discriminate|].
  destruct (ppid_of t p) as [q|] eqn:Hp; [|discriminate].
  rewrite orb_true_iff, Nat.eqb_eq. intros [->|H].
  - now apply descendant_child.
  - eapply descendant_step; [eassumption|]. now apply IH.
Qed.

Lemma chain_nodes t root l :
  parent_chain t l root -> incl l (map fst t).
Proof.
  induction l as [|p l IH]; simpl; [tauto|].
  destruct l as [|q l].
  - intros Hp x [<-|[]]. eapply ppid_of_exists; eassumption.
  - intros [Hp Hc] x [<-|Hx].
    + eapply ppid_of_exists; eassumption.
    + now apply IH.
Qed.

Lemma chain_suffix t root l1 a m :
  parent_chain t (l1 ++ a :: m) root -> parent_chain t (a :: m) root.
Proof.
  induction l1 as [|x l1 IH]; [tauto|].
  change ((x :: l1) ++ a :: m) with (x :: (l1 ++ a :: m)).
  simpl. destruct (l1 ++ a :: m) eqn:E.
  - destruct l1; discriminate.
  - rewrite <- E in *. intros [_ Hc]. now apply IH.
Qed.

Lemma chain_splice t root l1 a m m' :
  parent_chain t (l1 ++ a :: m) root ->
  parent_chain t (a :: m') root ->
  parent_chain t (l1 ++ a :: m') root.
Proof.
  intros H1 H2. induction l1 as [|x l1 IH]; [assumption|].
  change ((x :: l1) ++ a :: m) with (x :: (l1 ++ a :: m)) in H1.
  change ((x :: l1) ++ a :: m') with (x :: (l1 ++ a :: m')).
  destruct l1 as [|y l1].
  - simpl in *. tauto.
  - simpl in H1. destruct H1 as [Hx Hc]. simpl. split; [assumption|].
    apply IH. exact Hc.
Qed.

(** A chain can be cut down to one that visits no process twice. *)
Lemma chain_shorten t root n :
  forall p l, length l < n -> parent_chain t (p :: l) root ->
              exists l', parent_chain t (p :: l') root /\ NoDup (p :: l').
Proof.
  induction n as [|n IH]; intros p l Hn Hc; [lia|].
  destruct (NoDup_decidable Nat.eq_decidable (p :: l)) as [Hnd|Hnd].
  - now exists l.
  - apply (not_NoDup Nat.eq_decidable) in Hnd.
    destruct Hnd as (a & l1 & l2 & l3 & E).
    assert (Hc' : parent_chain t (l1 ++ a :: l3) root).
    { rewrite E in Hc. eapply chain_splice; [exact Hc|].
      apply chain_suffix with (l1 := l1 ++ a :: l2).
      rewrite <- app_assoc. exact Hc. }
    assert (Hlen : length (l1 ++ a :: l3) < length (p :: l)).
    { rewrite E. repeat (rewrite length_app; simpl). lia. }
    unfold pid in *. destruct l1 as [|x l1]; simpl in E, Hc', Hlen.
    + inversion E; subst. apply (IH a l3); [lia|exact Hc'].
    + inversion E; subst. apply (IH x (l1 ++ a :: l3)); [simpl in *; lia|exact Hc'].
Qed.

Lemma descendant_ancestor t root p :
  descendant t root p -> ancestor_b (length t) t p root = true.
Proof.
  intros Hd. destruct (descendant_chain Hd) as [l Hc].
  destruct (@chain_shorten t root (S (length l)) p l) as (l' & Hc' & Hnd);
    [lia|assumption|].
  apply chain_ancestor with (l := l'); [assumption|].
  rewrite <- (length_map fst t).
  apply NoDup_incl_length; [assumption|]. eapply chain_nodes; eassumption.
Qed.

(** [children_recursive] enumerates exactly the existing descendants. *)
Lemma children_recursive_spec t root p :
  In p (children_recursive t root) <-> descendant t root p.
Proof.
  unfold children_recursive. rewrite in_map_iff. split.
  - intros [e [<- He]]. apply filter_In in He.
    eapply ancestor_descendant. apply He.
  - intros Hd. pose proof (descendant_ancestor Hd) as Ha.
    assert (Hin : In p (map fst t)).
    { inversion Hd; eapply ppid_of_exists; eassumption. }
    apply in_map_iff in Hin. destruct Hin as [e [<- He]].
    exists e. split; [reflexivity|]. apply filter_In. tauto.
Qed.

(** * Pipes and buffers *)

Lemma split_line_app l line rest :
  split_line l = Some (line, rest) -> l = line ++ rest /\ line <> [].
Proof.
  revert line rest. induction l as [|b l IH]; intros line rest; simpl.
  - discriminate.
  - destruct (Byte.eqb b newline).
    + intros H. inversion H; subst. split; [reflexivity|discriminate].
    + destruct (split_line l) as [[ln rs]|]; [|discriminate].
      intros H. inversion H; subst. destruct (IH ln rest eq_refl) as [-> _].
      split; [reflexivity|discriminate].
Qed.

(** [readline] hands over a prefix of the pipe; the empty answer means a
    drained pipe at end of file. *)
Lemma readline_spec pipe eof line rest :
  readline pipe eof = Some (line, rest) ->
  pipe = line ++ rest /\ (line = [] -> pipe = [] /\ eof = true).
Proof.
  unfold readline. destruct (split_line pipe) as [[ln rs]|] eqn:E.
  - intros H. inversion H; subst. apply split_line_app in E.
    destruct E as [-> Hne]. split; [reflexivity|]. intros; contradiction.
  - destruct eof; [|discriminate]. intros H. inversion H; subst.
    rewrite app_nil_r. split; [reflexivity|]. intros ->. now split.
Qed.

(** At end of file [readline] never blocks. *)
Lemma readline_eof pipe : exists line rest, readline pipe true = Some (line, rest).
Proof.
  unfold readline. destruct (split_line pipe) as [[ln rs]|]; eauto.
Qed.

Lemma write_at_end line b :
  BytesIO.at_end b ->
  BytesIO.data (BytesIO.write line b) = BytesIO.data b ++ line /\
  BytesIO.at_end (BytesIO.write line b).
Proof.
  unfold BytesIO.at_end, BytesIO.write. intros H.
  destruct line as [|x line]; [now rewrite app_nil_r|].
  cbn [BytesIO.data BytesIO.pos]. rewrite H, firstn_all, Nat.sub_diag.
  rewrite skipn_all2 by lia. cbn [repeat app]. rewrite app_nil_r.
  split; [reflexivity|]. now rewrite length_app.
Qed.

Lemma clear_at_end b :
  BytesIO.truncate (BytesIO.seek 0 b) = BytesIO.new.
Proof. reflexivity. Qed.

(** * [kill] as the engine runs it *)

Lemma keeps_registry_refl s : keeps_registry s s.
Proof. unfold keeps_registry. auto. Qed.

Lemma keeps_registry_trans a b c :
  keeps_registry a b -> keeps_registry b c -> keeps_registry a c.
Proof.
  unfold keeps_registry. intros H1 H2 Ha.
  destruct (H1 Ha) as [E1 Hb]. destruct (H2 Hb) as [E2 Hc].
  split; congruence.
Qed.

Lemma keeps_env_step : stable keeps_registry env_step.
Proof.
  intros s Hs. unfold env_step. rewrite Hs. simpl. auto.
Qed.

Lemma keeps_os_kill w p sig : stable keeps_registry (os_kill w p sig).
Proof.
  unfold os_kill.
  apply stable_bind; [apply keeps_registry_trans|apply keeps_env_step|].
  intros _ s Hs. destruct (exists_pid (procs s) p); simpl; auto.
Qed.

Lemma keeps_psutil_children p : stable keeps_registry (psutil_children p).
Proof.
  unfold psutil_children.
  apply stable_bind; [apply keeps_registry_trans|apply keeps_env_step|].
  intros _ s Hs. destruct (exists_pid (procs s) p); simpl; auto.
Qed.

(** With nothing else going on, [kill] on an object with a process takes
    the object off the list once, if it is there. *)
Lemma kill_quiet_registry w self r sig p t reg :
  proc r = Some p ->
  OBJS_TO_CLEANUP (snd (kill w self r sig (Build_sys t reg []))) =
  registry_after_kill self reg.
Proof.
  intros Hp. unfold kill. rewrite Hp. unfold bind at 1.
  match goal with
  | |- context [try_except ?b ?c ?h ?s] =>
      assert (Hk : keeps_registry s (snd (try_except b c h s)))
  end.
  { apply stable_try; [apply keeps_registry_trans| |apply stable_ret, keeps_registry_refl].
    apply stable_bind; [apply keeps_registry_trans|apply keeps_psutil_children|].
    intros ds. apply stable_bind; [apply keeps_registry_trans| |intros _; apply keeps_os_kill].
    apply stable_for_each; [apply keeps_registry_refl|apply keeps_registry_trans|].
    intros d. apply keeps_os_kill. }
  match goal with
  | |- context [try_except ?b ?c ?h ?s] =>
      destruct (kill_try_returns w (popen_pid p)
                  (match sig with None => default_signal w | Some sg => sg end) s)
        as [s1 Ht]
  end.
  rewrite Ht in *. simpl in Hk. destruct (Hk eq_refl) as [E _]. simpl in E.
  unfold bind, registered, unregister, registry_after_kill. simpl. rewrite E.
  destruct (contains self reg) eqn:C; simpl; [rewrite E, C|]; simpl; auto.
Qed.

Lemma count_registry_after_kill self reg o :
  count_occ Nat.eq_dec (registry_after_kill self reg) o =
  if o =? self then pred (count_occ Nat.eq_dec reg o)
  else count_occ Nat.eq_dec reg o.
Proof.
  unfold registry_after_kill. destruct (contains self reg) eqn:C.
  - apply count_remove_first.
  - destruct (Nat.eqb_spec o self) as [->|]; [|reflexivity].
    apply contains_false in C.
    now rewrite (proj1 (count_occ_not_In Nat.eq_dec reg self) C).
Qed.

(** What [kill] does to the state of the engine: it always returns, and
    only the process table, the cleanup list, the exit status of the child
    and the count of kills move. *)
Lemma kill_step_effect cfg sig s :
  exists t',
    kill_step cfg sig s =
    (inr tt,
     set_kills_since_return
       (match caller s with
        | C_returned => S (kills_since_return s)
        | _ => kills_since_return s
        end)
       (set_exit_status
          (match tracked (obj s) with
           | Some p =>
               if exists_pid (os_procs s) p && negb (exists_pid t' p)
               then Some (killed_returncode (is_windows cfg)
                            (match sig with
                             | None => default_signal (is_windows cfg)
                             | Some sg => sg
                             end))
               else exit_status s
           | None => exit_status s
           end)
          (set_registry
             (match proc (obj s) with
              | Some _ => registry_after_kill (self cfg) (registry s)
              | None => registry s
              end)
             (set_os_procs t' s)))) /\
    (forall q, exists_pid t' q = true -> exists_pid (os_procs s) q = true) /\
    (proc (obj s) = None -> t' = os_procs s).
Proof.
  unfold kill_step.
  pose proof (kill_returns (is_windows cfg) (self cfg) (obj s) sig
                (Build_sys (os_procs s) (registry s) [])) as Hr.
  pose proof (stable_kill (is_windows cfg) (self cfg) (obj s) sig
                (Build_sys (os_procs s) (registry s) [])) as (_ & Hsub & _).
  assert (Hreg :
    OBJS_TO_CLEANUP
      (snd (kill (is_windows cfg) (self cfg) (obj s) sig
              (Build_sys (os_procs s) (registry s) []))) =
    match proc (obj s) with
    | Some _ => registry_after_kill (self cfg) (registry s)
    | None => registry s
    end).
  { destruct (proc (obj s)) as [p|] eqn:Hp.
    - now apply kill_quiet_registry with (p := p).
    - unfold kill. now rewrite Hp. }
  assert (Hnone :
    proc (obj s) = None ->
    procs (snd (kill (is_windows cfg) (self cfg) (obj s) sig
              (Build_sys (os_procs s) (registry s) []))) = os_procs s).
  { intros Hp. unfold kill. now rewrite Hp. }
  destruct (kill (is_windows cfg) (self cfg) (obj s) sig
              (Build_sys (os_procs s) (registry s) [])) as [r w].
  simpl in *. subst r. exists (procs w). rewrite Hreg. auto.
Qed.

Lemma exists_pid_nil_of_sub t' t :
  (forall q, exists_pid t' q = true -> exists_pid t q = true) ->
  t = [] -> t' = [].
Proof.
  intros Hsub ->. destruct t' as [|[a b] t']; [reflexivity|].
  specialize (Hsub a). simpl in Hsub. rewrite Nat.eqb_refl in Hsub.
  discriminate (Hsub eq_refl).
Qed.

Lemma exists_pid_app t e q :
  exists_pid (t ++ [e]) q = exists_pid t q || (fst e =? q).
Proof.
  unfold exists_pid. rewrite existsb_app. simpl. now rewrite orb_false_r.
Qed.

Lemma os_exit_nil_of_nil p : os_exit [] p = [].
Proof. reflexivity. Qed.

(** * The invariant holds in every reachable state *)

Lemma Inv_initial cfg : Inv cfg (initial cfg).
Proof.
  constructor; simpl; unfold worker_ok, engine_ok, caller_ok, unspawned,
    BytesIO.at_end; simpl; auto; try discriminate; try tauto.
  - split; [congruence|discriminate].
  - intros _ Hn. now apply count_occ_not_In.
Qed.

Lemma caller_step_inv cfg s s' :
  Inv cfg s -> caller_step cfg s = Some s' -> Inv cfg s'.
Proof.
  intros [Hw He Hc Ht Hs Hto Hte Hoe Hee Hob Heb Hsy Hrg] H.
  unfold caller_step in H. open_state s.
  unfold_inv. simpl in *.
  destruct c; simpl in *; try discriminate.
  - destruct (asynchronous cfg) eqn:Ha; step_done H.
  - destruct e; step_done H.
  - destruct pr; step_done H.
  - step_done H.
    destruct Hc as (_ & _ & -> & _).
    intros Ha Hn. specialize (Hrg Ha Hn). unfold objid in *.
    rewrite count_occ_app, Hrg. simpl.
    now destruct (Nat.eq_dec (self cfg) (self cfg)).
Qed.

Lemma spawn_step_inv cfg r s s' :
  Inv cfg s -> spawn_step cfg r s = Some s' -> Inv cfg s'.
Proof.
  intros [Hw He Hc Ht Hs Hto Hte Hoe Hee Hob Heb Hsy Hrg] H.
  unfold spawn_step in H. open_state s.
  unfold_inv. simpl in *.
  destruct w; simpl in *; try discriminate.
  destruct r as [p|].
  - destruct (exists_pid ps p || (p =? init_pid) || (p =? python_pid cfg)) eqn:Hx;
      [discriminate|].
    step_done H.
    break_hyps; subst; simpl.
    intros p0 Hp0. inversion Hp0; subst. rewrite Nat.eqb_refl. simpl.
    split; [discriminate|congruence].
  - step_done H.
Qed.

Lemma target_step_inv cfg s s' :
  Inv cfg s -> target_step s = Some s' -> Inv cfg s'.
Proof.
  intros [Hw He Hc Ht Hs Hto Hte Hoe Hee Hob Heb Hsy Hrg] H.
  unfold target_step in H. open_state s.
  unfold_inv. simpl in *.
  destruct w; simpl in *; try discriminate.
  - step_done H.
  - step_done H.
  - destruct xs as [c0|]; [|discriminate]. destruct pr as [p|]; [|discriminate].
    step_done H.
    split; [|tauto]. do 2 eexists. repeat split; reflexivity.
  - destruct to; try discriminate. step_done H.
  - destruct te; try discriminate. step_done H.
Qed.

Lemma pump_step_inv cfg st0 s s' :
  Inv cfg s -> pump_step st0 s = Some s' -> Inv cfg s'.
Proof.
  intros [Hw He Hc Ht Hs Hto Hte Hoe Hee Hob Heb Hsy Hrg] H.
  unfold pump_step, pipes_closed in H. open_state s.
  unfold_inv. simpl in *.
  destruct st0.
  - destruct to; try discriminate.
    destruct (readline op match ps with [] => true | _ :: _ => false end)
      as [[line rest]|] eqn:Hr; [|discriminate].
    apply readline_spec in Hr. destruct Hr as [Hop Hnil].
    destruct line as [|b line].
    + destruct (Hnil eq_refl) as [-> Hps].
      assert (ps = []) by (destruct ps; [reflexivity|discriminate]).
      step_done H.
    + destruct (@write_at_end (b :: line) ob Hoe) as [Hd He'].
      step_done H.
      intros Hcl. simpl in Hd. rewrite Hd, <- app_assoc. auto.
  - destruct te; try discriminate.
    destruct (readline ep match ps with [] => true | _ :: _ => false end)
      as [[line rest]|] eqn:Hr; [|discriminate].
    apply readline_spec in Hr. destruct Hr as [Hop Hnil].
    destruct line as [|b line].
    + destruct (Hnil eq_refl) as [-> Hps].
      assert (ps = []) by (destruct ps; [reflexivity|discriminate]).
      step_done H.
    + destruct (@write_at_end (b :: line) eb Hee) as [Hd He'].
      step_done H.
      intros Hcl. simpl in Hd. rewrite Hd, <- app_assoc. auto.
Qed.

Lemma exists_pid_nonempty (t : table) p : exists_pid t p = true -> t <> [].
Proof. destruct t; [discriminate|discriminate]. Qed.

Lemma write_step_inv cfg p st0 chunk s s' :
  Inv cfg s -> write_step p st0 chunk s = Some s' -> Inv cfg s'.
Proof.
  intros [Hw He Hc Ht Hs Hto Hte Hoe Hee Hob Heb Hsy Hrg] H.
  unfold write_step in H. open_state s.
  unfold_inv. simpl in *.
  destruct (exists_pid ps p) eqn:Hx; [|discriminate].
  apply exists_pid_nonempty in Hx.
  destruct st0; step_done H.
  - intros Hcl. rewrite app_assoc. f_equal. auto.
  - intros Hcl. rewrite app_assoc. f_equal. auto.
Qed.

Lemma fork_step_inv cfg p q s s' :
  Inv cfg s -> fork_step cfg p q s = Some s' -> Inv cfg s'.
Proof.
  intros [Hw He Hc Ht Hs Hto Hte Hoe Hee Hob Heb Hsy Hrg] H.
  unfold fork_step in H. open_state s.
  unfold_inv. simpl in *.
  match type of H with
  | (if ?b then _ else _) = _ => destruct b eqn:Hb; [|discriminate]
  end.
  rewrite !andb_true_iff in Hb. destruct Hb as [[[[Hp Hq] Hq1] Hq2] Hr].
  pose proof (@exists_pid_nonempty _ _ Hp) as Hne.
  step_done H.
  intros r Hr'. rewrite exists_pid_app. simpl.
  destruct pr as [x|]; [|discriminate]. simpl in *.
  inversion Hr'; subst.
  rewrite negb_true_iff in Hr. rewrite Hr, orb_false_r. now apply Hs.
Qed.

Lemma exit_step_inv cfg p code s s' :
  Inv cfg s -> exit_step p code s = Some s' -> Inv cfg s'.
Proof.
  intros [Hw He Hc Ht Hs Hto Hte Hoe Hee Hob Heb Hsy Hrg] H.
  unfold exit_step in H. open_state s.
  unfold_inv. simpl in *.
  destruct (exists_pid ps p) eqn:Hp; [|discriminate].
  pose proof (@exists_pid_nonempty _ _ Hp) as Hne.
  step_done H.
  - destruct pr as [x|]; simpl in *.
    2: { destruct w; simpl in *; break_hyps; subst; congruence. }
    specialize (Hs _ eq_refl).
    destruct (Nat.eqb_spec p (popen_pid x)) as [->|Hne'].
    + assert (xs = None) as ->.
      { destruct xs; [|reflexivity].
        assert (exists_pid ps (popen_pid x) = false) by (apply Hs; discriminate).
        congruence. }
      destruct w; simpl in *; break_hyps; subst; try congruence;
        repeat split; try assumption; eauto.
    + destruct w; simpl in *; break_hyps; subst; try congruence;
        try (destruct (Hto eq_refl); congruence);
        try (destruct (Hte eq_refl); congruence);
        repeat split; try assumption; eauto 6.
  - intros r Hr. rewrite exists_pid_os_exit.
    destruct pr as [x|]; [|discriminate]. simpl in *. inversion Hr; subst.
    specialize (Hs _ eq_refl). rewrite (Nat.eqb_sym (popen_pid x) p).
    destruct (Nat.eqb_spec p (popen_pid x)); simpl.
    + split; [discriminate|reflexivity].
    + exact Hs.
Qed.

Lemma tick_step_inv cfg s :
  Inv cfg s -> Inv cfg (set_clock (S (clock s)) s).
Proof.
  intros [Hw He Hc Ht Hs Hto Hte Hoe Hee Hob Heb Hsy Hrg].
  open_state s. unfold_inv. simpl in *. inv_split.
Qed.

Lemma kill_step_inv cfg sig s r s' b :
  Inv cfg s -> kill_step cfg sig s = (r, s') ->
  (asynchronous cfg = false -> b = true) ->
  r = inr tt /\ Inv cfg (set_timed_out (b || timed_out s) s').
Proof.
  intros HI Hk Hb.
  destruct (kill_step_effect cfg sig s) as (t' & E & Hsub & Hnone).
  rewrite E in Hk. inversion Hk; subst r s'; clear Hk E.
  split; [reflexivity|].
  destruct HI as [Hw He Hc Ht Hs Hto Hte Hoe Hee Hob Heb Hsy Hrg].
  pose proof (@exists_pid_nil_of_sub t' (os_procs s) Hsub) as Hnil.
  open_state s. unfold_inv. simpl in *.
  inv_split; easy_goal; mode_goal; ex_goal; case_goal; mode_case_goal.
  - destruct pr as [x|]; simpl in *.
    + specialize (Hs _ eq_refl).
      destruct w; simpl in *; break_hyps; subst; try congruence;
        try (rewrite (proj2 Hs) by discriminate; simpl);
        repeat split; try assumption; eauto 10.
    + rewrite (Hnone eq_refl). exact Hw.
  - destruct c; simpl in *; try assumption.
    destruct Hc as (-> & Hr0 & Hk0). simpl in He. subst w. simpl in Hw.
    destruct Hw as (-> & _). auto.
  - intros p Hp0. destruct pr as [x|]; [|discriminate]. simpl in *.
    inversion Hp0; subst. specialize (Hs _ eq_refl).
    destruct (exists_pid ps (popen_pid x)) eqn:E1;
      destruct (exists_pid t' (popen_pid x)) eqn:E2; simpl; try exact Hs.
    + split; [discriminate|reflexivity].
    + apply Hsub in E2. congruence.
  - intros Ha. destruct (Hsy Ha) as [Hcl _]. split; [exact Hcl|].
    rewrite (Hb Ha). discriminate.
  - intros Ha Hn. specialize (Hrg Ha Hn). destruct pr as [x|].
    + unfold objid in *.
      rewrite count_registry_after_kill, Nat.eqb_refl, Hrg.
      destruct c; simpl; try reflexivity. destruct ks; reflexivity.
    + rewrite Hrg. destruct c; try reflexivity.
      rewrite Ha in Hc. destruct Hc as [_ Hc]. congruence.
Qed.

Lemma kill_step_frame cfg sig s :
  engine (snd (kill_step cfg sig s)) = engine s /\
  caller (snd (kill_step cfg sig s)) = caller s /\
  timed_out (snd (kill_step cfg sig s)) = timed_out s /\
  obj (snd (kill_step cfg sig s)) = obj s.
Proof.
  unfold kill_step. destruct (kill _ _ _ _ _) as [r w]. simpl. auto.
Qed.

Lemma kill_step_worker cfg sig s :
  worker (snd (kill_step cfg sig s)) = worker s.
Proof.
  unfold kill_step. destruct (kill _ _ _ _ _) as [r w]. reflexivity.
Qed.

Lemma set_timed_out_id s : set_timed_out (timed_out s) s = s.
Proof. now destruct s. Qed.

Lemma Inv_engine_join cfg s :
  Inv cfg s -> engine s = E_kill -> Inv cfg (set_engine E_join s).
Proof.
  intros [Hw He Hc Ht Hs Hto Hte Hoe Hee Hob Heb Hsy Hrg] H.
  open_state s. unfold_inv. simpl in *. subst e.
  inv_split; easy_goal; mode_goal; ex_goal; case_goal; mode_case_goal.
Qed.

Lemma engine_step_inv cfg s s' :
  Inv cfg s -> engine_step cfg s = Some s' -> Inv cfg s'.
Proof.
  intros HI H. unfold engine_step in H.
  destruct (engine s) eqn:Ee; try discriminate.
  6: { destruct (kill_step cfg None s) as [r s1] eqn:Hk.
       destruct (@kill_step_inv cfg None s r s1 true HI Hk (fun _ => eq_refl))
         as [-> HI1].
       inversion H; subst s'; clear H. simpl in HI1.
       apply Inv_engine_join; [exact HI1|].
       pose proof (kill_step_frame cfg None s) as (E1 & _).
       rewrite Hk in E1. simpl in *. congruence. }
  all: destruct HI as [Hw He Hc Ht Hs Hto Hte Hoe Hee Hob Heb Hsy Hrg];
    open_state s; unfold_inv; simpl in *; subst e.
  - step_done H.
  - destruct (timeout cfg) eqn:Et; step_done H.
  - destruct w; try discriminate; step_done H.
  - destruct (finished w || (dl <=? ck)); [|discriminate]. step_done H.
  - destruct (finished w) eqn:Ef; step_done H.
    destruct w; try discriminate; simpl in *; [now left|right].
    destruct Hw as [-> _]. tauto.
  - destruct (finished w) eqn:Ef; [|discriminate]. step_done H.
    destruct w; try discriminate; simpl in *; [now left|right].
    destruct Hw as [-> _]. tauto.
  - destruct pr as [p|]; step_done H.
    + destruct He as [->|[_ ->]]; [reflexivity|].
      simpl in Hw. destruct Hw as (_ & ? & _). discriminate.
    + destruct He as [->|[Hn ->]].
      * simpl in Hw. destruct Hw as [(? & ? & ? & _) _]. discriminate.
      * split; [reflexivity|]. destruct (timeout cfg); congruence.
  - step_done H.
Qed.

Lemma clear_step_inv cfg s :
  Inv cfg s -> asynchronous cfg = true ->
  Inv cfg (set_cleared true (set_obj (clear_buffers (obj s)) s)).
Proof.
  intros [Hw He Hc Ht Hs Hto Hte Hoe Hee Hob Heb Hsy Hrg] Ha.
  open_state s. unfold_inv. simpl in *.
  inv_split; easy_goal.
Qed.

Lemma step_inv cfg l s s' :
  Inv cfg s -> step cfg l s = Some s' -> Inv cfg s'.
Proof.
  intros HI H. destruct l; simpl in H.
  - eapply caller_step_inv; eauto.
  - eapply engine_step_inv; eauto.
  - eapply spawn_step_inv; eauto.
  - eapply target_step_inv; eauto.
  - eapply pump_step_inv; eauto.
  - inversion H; subst. now apply tick_step_inv.
  - eapply write_step_inv; eauto.
  - eapply fork_step_inv; eauto.
  - eapply exit_step_inv; eauto.
  - destruct (holds_result cfg s) eqn:Hh; [|discriminate].
    unfold holds_result in Hh. apply andb_true_iff in Hh. destruct Hh as [Ha _].
    destruct (kill_step cfg sig s) as [r s1] eqn:Hk.
    destruct (@kill_step_inv cfg sig s r s1 false HI Hk) as [-> HI1];
      [congruence|].
    inversion H; subst s'; clear H. simpl in HI1.
    pose proof (kill_step_frame cfg sig s) as (_ & _ & E & _).
    rewrite Hk in E. simpl in E. rewrite <- E, set_timed_out_id in HI1.
    exact HI1.
  - destruct (holds_result cfg s) eqn:Hh; [|discriminate].
    unfold holds_result in Hh. apply andb_true_iff in Hh. destruct Hh as [Ha _].
    inversion H; subst s'. now apply clear_step_inv.
Qed.

Lemma exec_inv cfg ls : forall s s',
  Inv cfg s -> exec cfg ls s = Some s' -> Inv cfg s'.
Proof.
  induction ls as [|l ls IH]; intros s s' HI H; simpl in H.
  - now inversion H; subst.
  - destruct (step cfg l s) as [s1|] eqn:E; [|discriminate].
    eapply IH; [|exact H]. eapply step_inv; eauto.
Qed.

Lemma reachable_inv cfg s : reachable cfg s -> Inv cfg s.
Proof.
  intros [ls H]. eapply exec_inv; [apply Inv_initial|exact H].
Qed.

(** * Results of synchronous invocations *)

(** Once [exec_cmd] has returned, the engine and all its threads have
    finished and the processes of the invocation are gone. *)
Lemma sync_returned_quiescent cfg s :
  Inv cfg s -> asynchronous cfg = false -> caller s = C_returned ->
  engine s = E_done /\ worker s = T_done /\ tout s = P_done /\ terr s = P_done /\
  os_procs s = [] /\ out_pipe s = [] /\ err_pipe s = [].
Proof.
  intros HI Ha Hc.
  pose proof (inv_caller HI) as C. unfold caller_ok in C. rewrite Hc, Ha in C.
  destruct C as [_ Ee].
  pose proof (inv_engine HI) as E. unfold engine_ok in E. rewrite Ee in E.
  pose proof (inv_worker HI) as W. unfold worker_ok in W. rewrite E in W.
  destruct W as (_ & Ho & He).
  destruct (inv_tout HI Ho) as [Hop Hps]. destruct (inv_terr HI He) as [Hep _].
  repeat split; assumption.
Qed.

(** After that only the clock moves. *)
Lemma sync_returned_step cfg l s s' :
  Inv cfg s -> asynchronous cfg = false -> caller s = C_returned ->
  step cfg l s = Some s' -> s' = set_clock (S (clock s)) s.
Proof.
  intros HI Ha Hc H.
  destruct (@sync_returned_quiescent cfg s HI Ha Hc) as (Ee & Ew & Ho & He & Hps & _).
  destruct l; simpl in H.
  - unfold caller_step in H. rewrite Hc in H. discriminate.
  - unfold engine_step in H. rewrite Ee in H. discriminate.
  - unfold spawn_step in H. rewrite Ew in H. discriminate.
  - unfold target_step in H. rewrite Ew in H. discriminate.
  - unfold pump_step in H. rewrite Ho, He in H. destruct st; discriminate.
  - now inversion H.
  - unfold write_step in H. rewrite Hps in H. discriminate.
  - unfold fork_step in H. rewrite Hps in H. discriminate.
  - unfold exit_step in H. rewrite Hps in H. discriminate.
  - unfold holds_result in H. rewrite Ha in H. discriminate.
  - unfold holds_result in H. rewrite Ha in H. discriminate.
Qed.

Lemma sync_returned_stable cfg ls : forall s s',
  Inv cfg s -> asynchronous cfg = false -> caller s = C_returned ->
  exec cfg ls s = Some s' ->
  obj s' = obj s /\ written_out s' = written_out s /\
  written_err s' = written_err s /\ registry s' = registry s.
Proof.
  induction ls as [|l ls IH]; intros s s' HI Ha Hc H; simpl in H.
  - inversion H; subst. auto.
  - destruct (step cfg l s) as [s1|] eqn:E; [|discriminate].
    assert (HI1 : Inv cfg s1) by (eapply step_inv; eauto).
    apply sync_returned_step in E; auto. subst s1.
    destruct (IH _ _ HI1 Ha Hc H) as (-> & -> & -> & ->). auto.
Qed.

(** The elapsed time is set only after both pumps have ended, and then the
    exit code is the exit status of the child. *)
Lemma total_time_after_pumps cfg s :
  Inv cfg s -> total_time (obj s) <> None ->
  tout s = P_done /\ terr s = P_done /\
  exists c, returncode (obj s) = Some c /\ exit_status s = Some c.
Proof.
  intros HI Ht. apply (inv_total_time HI) in Ht.
  pose proof (inv_engine HI) as E. unfold engine_ok in E. rewrite Ht in E.
  pose proof (inv_worker HI) as W. unfold worker_ok in W. rewrite E in W.
  destruct W as ((p & c & _ & _ & Hr & Hx) & Ho & He). eauto.
Qed.

Lemma kill_step_obj cfg sig s : obj (snd (kill_step cfg sig s)) = obj s.
Proof.
  unfold kill_step. destruct (kill _ _ _ _ _) as [r w]. reflexivity.
Qed.

(** Once set, the exit code keeps its value: the assignment at the end of
    [_exec_cmd] writes what [wait()] returned. *)
Lemma returncode_kept cfg l s s' c :
  Inv cfg s -> returncode (obj s) = Some c -> step cfg l s = Some s' ->
  returncode (obj s') = Some c.
Proof.
  intros HI Hc H.
  pose proof (inv_worker HI) as W. unfold worker_ok, unspawned, running, observed in W.
  pose proof (inv_engine HI) as E. unfold engine_ok in E.
  destruct l; simpl in H;
    unfold caller_step, engine_step, spawn_step, target_step, pump_step,
      write_step, fork_step, exit_step in H;
    try match type of H with
        | context [kill_step ?c ?sg ?x] =>
            pose proof (kill_step_obj c sg x) as Hk
        end;
    repeat match type of H with
           | context [match ?x with _ => _ end] => destruct x eqn:?; try discriminate
           | context [if ?x then _ else _] => destruct x eqn:?; try discriminate
           end;
    inversion H; subst; simpl in *; try congruence;
    break_hyps; try congruence.
  all: destruct E as [E|[_ E]]; rewrite E in W; break_hyps; congruence.
Qed.

Lemma returncode_kept_exec cfg ls c : forall s s',
  Inv cfg s -> returncode (obj s) = Some c -> exec cfg ls s = Some s' ->
  returncode (obj s') = Some c.
Proof.
  induction ls as [|l ls IH]; intros s s' HI Hc H; simpl in H.
  - now inversion H; subst.
  - destruct (step cfg l s) as [s1|] eqn:E; [|discriminate].
    apply (IH s1); [eapply step_inv; eauto| |exact H].
    eapply returncode_kept; eauto.
Qed.

(** C1, as the claim has it: it fails for the exit code.  [wait()] has
    returned and the exit code is set, while both pumps are still reading
    and three bytes are still in the pipe. *)
Lemma returncode_set_before_pumps_end :
  ~ (forall cfg ls s,
       exec cfg ls (initial cfg) = Some s ->
       returncode (obj s) <> None ->
       tout s = P_done /\ terr s = P_done).
Proof.
  intros H.
  destruct (H cfg_async run_async_waited waited_async eq_refl) as [Ho _];
    discriminate.
Qed.

(** C1, amended.  When [exec_cmd] returns, with or without a timeout:
    both pump threads have ended, the exit code is the exit status of the
    child, the elapsed time is set, each buffer holds every byte written
    to its stream and nothing is left in the pipes; nothing changes
    afterwards.  In every state of any invocation the elapsed time is set
    only once both pumps have ended; the exit code may be set before
    that, and once set it never changes. *)
Theorem result_final_after_pumps cfg ls s :
  exec cfg ls (initial cfg) = Some s ->
  (asynchronous cfg = false -> caller s = C_returned ->
   tout s = P_done /\ terr s = P_done /\
   (exists c, returncode (obj s) = Some c /\ exit_status s = Some c) /\
   total_time (obj s) <> None /\
   stdout (obj s) = written_out s /\ stderr (obj s) = written_err s /\
   out_pipe s = [] /\ err_pipe s = [] /\
   forall ls' s', exec cfg ls' s = Some s' ->
                  obj s' = obj s /\ written_out s' = written_out s /\
                  written_err s' = written_err s) /\
  (total_time (obj s) <> None -> tout s = P_done /\ terr s = P_done) /\
  (forall c, returncode (obj s) = Some c ->
             forall ls' s', exec cfg ls' s = Some s' ->
                            returncode (obj s') = Some c).
Proof.
  intros H. assert (HI : Inv cfg s) by (apply reachable_inv; now exists ls).
  split; [|split].
  - intros Ha Hc.
    destruct (@sync_returned_quiescent cfg s HI Ha Hc)
      as (Ee & Ew & Ho & He & Hps & Hop & Hep).
    assert (Ht : total_time (obj s) <> None) by now apply (inv_total_time HI).
    destruct (@total_time_after_pumps cfg s HI Ht) as (_ & _ & Hc').
    destruct (inv_sync HI Ha) as [Hcl _].
    pose proof (inv_out_bytes HI Hcl) as Bo. pose proof (inv_err_bytes HI Hcl) as Be.
    rewrite Hop, app_nil_r in Bo. rewrite Hep, app_nil_r in Be.
    refine (conj Ho (conj He (conj Hc' (conj Ht (conj _ (conj _
              (conj Hop (conj Hep _)))))))); [congruence|congruence|].
    intros ls' s' H'.
    now destruct (@sync_returned_stable cfg ls' s s' HI Ha Hc H') as (? & ? & ? & ?).
  - intros Ht. destruct (@total_time_after_pumps cfg s HI Ht) as (? & ? & _). auto.
  - intros c Hc ls' s' H'. eapply returncode_kept_exec; eauto.
Qed.

Lemma result_final_after_pumps_witness :
  (stdout (obj final_sync) = hi /\ returncode (obj final_sync) = Some 0%Z /\
   tout final_sync = P_done /\ terr final_sync = P_done) /\
  (stdout (obj final_timeout) = hi /\
   returncode (obj final_timeout) = Some (-9)%Z /\
   tout final_timeout = P_done /\ terr final_timeout = P_done) /\
  returncode (obj final_async) = Some 0%Z.
Proof.
  split; [|split].
  - destruct (@result_final_after_pumps cfg_sync run_sync final_sync eq_refl)
      as [H _].
    destruct (H eq_refl eq_refl) as (Ho & He & _ & _ & Hb & _).
    repeat split; try assumption; reflexivity.
  - destruct (@result_final_after_pumps cfg_timeout run_timeout final_timeout
                eq_refl) as [H _].
    destruct (H eq_refl eq_refl) as (Ho & He & _ & _ & Hb & _).
    repeat split; try assumption; reflexivity.
  - destruct (@result_final_after_pumps cfg_async run_async_waited waited_async
                eq_refl) as (_ & _ & H).
    apply (H 0%Z eq_refl run_async_finish). vm_compute. reflexivity.
Defined.

(** * Launch failures *)

(** Once [Popen] has raised, [target] stays where it is. *)
Lemma worker_raised_step cfg l s s' e :
  Inv cfg s -> worker s = T_raised e -> step cfg l s = Some s' ->
  worker s' = T_raised e.
Proof.
  intros HI Hw H.
  pose proof (inv_engine HI) as E. unfold engine_ok in E. rewrite Hw in E.
  destruct l; simpl in H;
    unfold caller_step, engine_step, spawn_step, target_step, pump_step,
      write_step, fork_step, exit_step in H;
    try rewrite Hw in H;
    try match type of H with
        | context [kill_step ?c ?sg ?x] =>
            pose proof (kill_step_worker c sg x) as Hk
        end;
    repeat match type of H with
           | context [match ?x with _ => _ end] => destruct x eqn:?; try discriminate
           | context [if ?x then _ else _] => destruct x eqn:?; try discriminate
           end;
    try discriminate E;
    inversion H; subst; simpl in *; congruence.
Qed.

Lemma worker_raised_exec cfg ls e : forall s s',
  Inv cfg s -> worker s = T_raised e -> exec cfg ls s = Some s' ->
  worker s' = T_raised e.
Proof.
  induction ls as [|l ls IH]; intros s s' HI Hw H; simpl in H.
  - now inversion H; subst.
  - destruct (step cfg l s) as [s1|] eqn:E; [|discriminate].
    apply (IH s1); [eapply step_inv; eauto| |exact H].
    eapply worker_raised_step; eauto.
Qed.

(** What the caller sees after a failed launch. *)
Lemma launch_failure_caller cfg s :
  Inv cfg s -> worker s = T_raised OSError ->
  proc (obj s) = None /\ returncode (obj s) = None /\
  tout s = P_idle /\ terr s = P_idle /\
  (if asynchronous cfg then caller s = C_spin
   else caller s = C_exec \/
        caller s = C_raised match timeout cfg with
                            | None => OSError
                            | Some _ => AttributeError
                            end).
Proof.
  intros HI Hw.
  pose proof (inv_worker HI) as W. unfold worker_ok in W. rewrite Hw in W.
  destruct W as (_ & Hp & Hr & Ho & He & _).
  repeat (split; [assumption|]).
  pose proof (inv_engine HI) as E. unfold engine_ok in E.
  pose proof (inv_caller HI) as C. unfold caller_ok in C.
  destruct (caller s) eqn:Ec.
  - destruct C as (Ee & _). rewrite Ee, Hw in E. discriminate.
  - destruct C as (-> & _). now left.
  - destruct C as (-> & _). reflexivity.
  - destruct C as (_ & _ & _ & C). contradiction.
  - destruct C as (_ & C). destruct (asynchronous cfg); [contradiction|].
    rewrite C, Hw in E. discriminate.
  - destruct C as (-> & Ee). right. rewrite Ee in E. destruct E as [_ E].
    destruct (timeout cfg); now subst.
Qed.

(** C2 (the code falls short of it).  After [Popen] has raised there is
    never a process, an exit code or a pump.  [exec_cmd] without a timeout
    lets the [OSError] through; with a timeout the caller gets an
    [AttributeError] instead; [async_cmd] never returns and never raises:
    the caller stays in its polling loop for ever. *)
Theorem launch_failure_outcome cfg ls s :
  exec cfg ls (initial cfg) = Some s -> worker s = T_raised OSError ->
  forall ls' s', exec cfg ls' s = Some s' ->
    proc (obj s') = None /\ returncode (obj s') = None /\
    tout s' = P_idle /\ terr s' = P_idle /\
    (if asynchronous cfg
     then caller s' = C_spin /\ step cfg Caller s' = Some s'
     else caller s' = C_exec \/
          caller s' = C_raised match timeout cfg with
                               | None => OSError
                               | Some _ => AttributeError
                               end).
Proof.
  intros H Hw ls' s' H'.
  assert (HI : Inv cfg s) by (apply reachable_inv; now exists ls).
  assert (HI' : Inv cfg s') by (eapply exec_inv; eauto).
  assert (Hw' : worker s' = T_raised OSError)
    by (apply (@worker_raised_exec cfg ls' OSError s s' HI Hw H')).
  destruct (@launch_failure_caller cfg s' HI' Hw') as (Hp & Hr & Ho & He & Hc).
  repeat (split; [assumption|]).
  destruct (asynchronous cfg); [|exact Hc].
  split; [exact Hc|]. simpl. unfold caller_step. now rewrite Hc, Hp.
Qed.

Lemma launch_failure_outcome_witness :
  caller polling_async = C_spin /\
  step cfg_async_fail Caller polling_async = Some polling_async.
Proof.
  assert (H1 : exec cfg_async_fail run_async_fail (initial cfg_async_fail)
               = Some failed_async) by (vm_compute; reflexivity).
  assert (H2 : worker failed_async = T_raised OSError) by reflexivity.
  assert (H3 : exec cfg_async_fail run_async_poll failed_async
               = Some polling_async) by (vm_compute; reflexivity).
  destruct (launch_failure_outcome _ _ H1 H2 _ H3) as (_ & _ & _ & _ & Hc).
  exact Hc.
Defined.

(** * Termination: what [kill], [__del__] and [cleanup] guarantee *)

Lemma count_fold_registry_after_kill l : forall reg o,
  count_occ Nat.eq_dec (fold_left (fun rg x => registry_after_kill x rg) l reg) o =
  count_occ Nat.eq_dec reg o - count_occ Nat.eq_dec l o.
Proof.
  induction l as [|x l IH]; intros reg o; simpl.
  - lia.
  - rewrite IH, count_registry_after_kill. unfold objid in *.
    destruct (Nat.eq_dec x o) as [->|Hn].
    + rewrite Nat.eqb_refl. lia.
    + destruct (Nat.eqb_spec o x); [congruence|lia].
Qed.

Lemma fold_registry_after_kill_self l :
  fold_left (fun rg x => registry_after_kill x rg) l l = [].
Proof.
  apply (count_occ_inv_nil Nat.eq_dec). intros o.
  rewrite count_fold_registry_after_kill. lia.
Qed.

(** C3 (the code falls short of it).  The tracked process 10 has the
    descendants 11, 12 and 13.  Process 11 exits by itself between the
    enumeration and its signal: [kill] returns normally, yet it has sent
    no signal at all; the tracked process and two descendants live on. *)
Theorem kill_stops_at_dead_descendant :
  children_recursive (procs sys_tree) 10 = [11; 12; 13] /\
  kill false 7 r_tree None sys_tree =
  (inr tt,
   {| procs := [(10, 2); (12, 1); (13, 10)];
      OBJS_TO_CLEANUP := [5; 7]; env := [] |}).
Proof. split; reflexivity. Qed.



(** C7 (the code falls short of it).  Shutdown with one result on the
    cleanup list, on the process tree of C3: [cleanup] returns and the
    list is empty, yet the tracked process 10 and the descendants 12 and
    13 are alive, because [kill] stopped at the descendant that had
    gone. *)
Theorem cleanup_stops_at_dead_descendant :
  cleanup false (fun _ => r_tree) sys_tree_exit =
  (inr tt,
   {| procs := [(10, 2); (12, 1); (13, 10)];
      OBJS_TO_CLEANUP := []; env := [] |}).
Proof. reflexivity. Qed.

Lemma wf_sys_tree : wf_table (procs sys_tree).
Proof. unfold wf_table. simpl. repeat constructor; simpl; intuition congruence. Qed.

Lemma wf_sys_two : wf_table (procs sys_two).
Proof. unfold wf_table. simpl. repeat constructor; simpl; intuition congruence. Qed.

(** * Dropping the handle of a result *)





(** * Streams *)

Lemma kill_step_streams cfg sig s :
  streams (snd (kill_step cfg sig s)) = streams s.
Proof.
  unfold kill_step. destruct (kill _ _ _ _ _) as [r w]. reflexivity.
Qed.

Lemma step_stream_effect cfg l s s' :
  step cfg l s = Some s' -> stream_effect l s s'.
Proof.
  intros H. destruct l; simpl in H; unfold stream_effect.
  - unfold caller_step in H.
    repeat match type of H with
           | context [match ?x with _ => _ end] => destruct x eqn:?; try discriminate
           | context [if ?x then _ else _] => destruct x eqn:?; try discriminate
           end; inversion H; subst; reflexivity.
  - unfold engine_step in H.
    pose proof (kill_step_streams cfg None s) as K.
    repeat match type of H with
           | context [match ?x with _ => _ end] => destruct x eqn:?; try discriminate
           | context [if ?x then _ else _] => destruct x eqn:?; try discriminate
           end; inversion H; subst; try reflexivity; exact K.
  - unfold spawn_step in H.
    repeat match type of H with
           | context [match ?x with _ => _ end] => destruct x eqn:?; try discriminate
           | context [if ?x then _ else _] => destruct x eqn:?; try discriminate
           end; inversion H; subst; reflexivity.
  - unfold target_step in H.
    repeat match type of H with
           | context [match ?x with _ => _ end] => destruct x eqn:?; try discriminate
           | context [if ?x then _ else _] => destruct x eqn:?; try discriminate
           end; inversion H; subst; reflexivity.
  - unfold pump_step in H. destruct st.
    + destruct (tout s) eqn:Et; try discriminate. split; [reflexivity|].
      destruct (readline _ _) as [[line rest]|] eqn:R; [|discriminate].
      apply readline_spec in R. destruct R as [Hp Hn].
      exists line, rest. split; [exact Hp|].
      destruct line; inversion H; subst; [|reflexivity].
      destruct (Hn eq_refl) as [E _]. unfold streams. simpl.
      rewrite E in Hp. simpl in Hp. now rewrite <- Hp, E.
    + destruct (terr s) eqn:Et; try discriminate. split; [reflexivity|].
      destruct (readline _ _) as [[line rest]|] eqn:R; [|discriminate].
      apply readline_spec in R. destruct R as [Hp Hn].
      exists line, rest. split; [exact Hp|].
      destruct line; inversion H; subst; [|reflexivity].
      destruct (Hn eq_refl) as [E _]. unfold streams. simpl.
      rewrite E in Hp. simpl in Hp. now rewrite <- Hp, E.
  - inversion H; subst; reflexivity.
  - unfold write_step in H. destruct (exists_pid _ _); [|discriminate].
    destruct st; inversion H; subst; reflexivity.
  - unfold fork_step in H.
    match type of H with (if ?b then _ else _) = _ => destruct b end;
      inversion H; subst; reflexivity.
  - unfold exit_step in H.
    destruct (exists_pid _ _); inversion H; subst; reflexivity.
  - destruct (holds_result cfg s); [|discriminate].
    pose proof (kill_step_streams cfg sig s) as K.
    destruct (kill_step cfg sig s) as [[x|[]] k]; inversion H; subst; exact K.
  - destruct (holds_result cfg s); inversion H; subst; reflexivity.
Qed.

(** Outside [clear_buffers] a step only appends to the buffers, and
    leaves a buffer alone once its pump has ended. *)
Lemma step_buffers_grow cfg l s s' :
  Inv cfg s -> step cfg l s = Some s' -> l <> UserClear ->
  (exists more, stdout (obj s') = stdout (obj s) ++ more /\
                (tout s = P_done -> more = [])) /\
  (exists more, stderr (obj s') = stderr (obj s) ++ more /\
                (terr s = P_done -> more = [])).
Proof.
  intros HI H Hl. apply step_stream_effect in H.
  destruct l; try destruct st; simpl in H; try congruence;
    try (open_streams H; split; exists []; same_bytes).
  - destruct H as (Et & line & rest & Hp & E). open_streams E. split.
    + exists line. split; [|congruence].
      match goal with K : stdout_buf _ = _ |- _ => rewrite K end.
      apply write_at_end, (inv_out_end HI).
    + exists []. same_bytes.
  - destruct H as (Et & line & rest & Hp & E). open_streams E. split.
    + exists []. same_bytes.
    + exists line. split; [|congruence].
      match goal with K : stderr_buf _ = _ |- _ => rewrite K end.
      apply write_at_end, (inv_err_end HI).
Qed.

(** Outside [clear_buffers], what a buffer and its pipe hold together
    grows by exactly what the processes write. *)
Lemma step_streams_delta cfg l s s' :
  Inv cfg s -> step cfg l s = Some s' -> l <> UserClear ->
  exists co ce,
    written_out s' = written_out s ++ co /\
    written_err s' = written_err s ++ ce /\
    stdout (obj s') ++ out_pipe s' = (stdout (obj s) ++ out_pipe s) ++ co /\
    stderr (obj s') ++ err_pipe s' = (stderr (obj s) ++ err_pipe s) ++ ce.
Proof.
  intros HI H Hl. apply step_stream_effect in H.
  destruct l; try destruct st; simpl in H; try congruence;
    try (open_streams H; exists [], []; same_bytes).
  - destruct H as (Et & line & rest & Hp & E). open_streams E.
    exists [], []. rewrite !app_nil_r.
    match goal with K : stdout_buf _ = _ |- _ => rewrite K end.
    destruct (@write_at_end line (stdout_buf (obj s)) (inv_out_end HI)) as [-> _].
    rewrite Hp, app_assoc. repeat split; congruence.
  - destruct H as (Et & line & rest & Hp & E). open_streams E.
    exists [], []. rewrite !app_nil_r.
    match goal with K : stderr_buf _ = _ |- _ => rewrite K end.
    destruct (@write_at_end line (stderr_buf (obj s)) (inv_err_end HI)) as [-> _].
    rewrite Hp, app_assoc. repeat split; congruence.
  - open_streams H. exists chunk, []. use_streams.
    now rewrite !app_nil_r, app_assoc.
  - open_streams H. exists [], chunk. use_streams.
    now rewrite !app_nil_r, app_assoc.
Qed.

Lemma exec_streams_delta cfg ls : forall s s',
  Inv cfg s -> exec cfg ls s = Some s' -> ~ In UserClear ls ->
  exists co ce,
    written_out s' = written_out s ++ co /\
    written_err s' = written_err s ++ ce /\
    stdout (obj s') ++ out_pipe s' = (stdout (obj s) ++ out_pipe s) ++ co /\
    stderr (obj s') ++ err_pipe s' = (stderr (obj s) ++ err_pipe s) ++ ce.
Proof.
  induction ls as [|l ls IH]; intros s s' HI H Hn; simpl in H.
  - inversion H; subst. exists [], []. now rewrite !app_nil_r.
  - destruct (step cfg l s) as [s1|] eqn:E; [|discriminate].
    assert (HI1 : Inv cfg s1) by (eapply step_inv; eauto).
    destruct (@step_streams_delta cfg l s s1 HI E) as (co1 & ce1 & A1 & B1 & C1 & D1).
    { intros ->. apply Hn. now left. }
    destruct (IH s1 s' HI1 H) as (co2 & ce2 & A2 & B2 & C2 & D2).
    { intros Hin. apply Hn. now right. }
    exists (co1 ++ co2), (ce1 ++ ce2).
    rewrite A2, B2, C2, D2, A1, B1, C1, D1, !app_assoc. auto.
Qed.

(** * The cleanup list during an invocation *)

Lemma registry_untouched_initial cfg : registry_untouched cfg (initial cfg).
Proof.
  split; simpl; [discriminate|]. intros _ _. now rewrite app_nil_r.
Qed.

Lemma kill_step_kills cfg sig s :
  caller s = C_returned ->
  kills_since_return (snd (kill_step cfg sig s)) = S (kills_since_return s).
Proof.
  intros Hc. unfold kill_step. destruct (kill _ _ _ _ _) as [r w]. simpl.
  now rewrite Hc.
Qed.

Lemma step_registry_untouched cfg l s s' :
  Inv cfg s -> registry_untouched cfg s -> step cfg l s = Some s' ->
  registry_untouched cfg s'.
Proof.
  intros HI [Ht Hr] H.
  pose proof (inv_caller HI) as C. unfold caller_ok in C.
  pose proof (inv_engine HI) as E. unfold engine_ok in E.
  unfold registry_untouched.
  destruct l; simpl in H.
  - unfold caller_step in H.
    destruct (caller s) eqn:Ec; try discriminate.
    + destruct (asynchronous cfg); inversion H; subst; split; simpl; auto.
    + destruct C as (Ha & _).
      destruct (engine s); inversion H; subst; split; simpl; auto.
      all: rewrite Ha; assumption.
    + destruct (proc (obj s)); inversion H; subst; split; simpl; auto.
      now rewrite Ec.
    + destruct C as (Ha & _).
      inversion H; subst; split; simpl; auto.
      intros T K. rewrite (Hr T K), app_nil_r, Ha. reflexivity.
  - unfold engine_step in H.
    destruct (engine s) eqn:Ee; try discriminate;
      try (inversion H; subst; split; simpl; assumption).
    + destruct (timeout cfg); inversion H; subst; split; simpl; assumption.
    + destruct (worker s); inversion H; subst; split; simpl; assumption.
    + destruct (_ || _); inversion H; subst; split; simpl; assumption.
    + destruct (finished _); inversion H; subst; split; simpl; assumption.
    + destruct (kill_step cfg None s) as [[x|[]] k]; inversion H; subst;
        (split; simpl; [intros _; tauto|discriminate]).
    + destruct (finished _); inversion H; subst; split; simpl; assumption.
    + destruct (proc (obj s)); inversion H; subst; split; simpl; assumption.
  - unfold spawn_step in H. destruct (worker s); try discriminate.
    destruct r; [destruct (_ || _); [discriminate|]|];
      inversion H; subst; split; simpl; assumption.
  - unfold target_step in H.
    destruct (worker s); try discriminate;
      [| |destruct (exit_status s); [destruct (proc (obj s))|]
       |destruct (tout s)|destruct (terr s)];
      inversion H; subst; split; simpl; assumption.
  - unfold pump_step in H.
    destruct st; [destruct (tout s)|destruct (terr s)]; try discriminate;
      destruct (readline _ _) as [[[|b line] rest]|];
      inversion H; subst; split; simpl; assumption.
  - inversion H; subst; split; simpl; assumption.
  - unfold write_step in H. destruct (exists_pid _ _); [|discriminate].
    destruct st; inversion H; subst; split; simpl; assumption.
  - unfold fork_step in H.
    match type of H with (if ?b then _ else _) = _ => destruct b end;
      inversion H; subst; split; simpl; assumption.
  - unfold exit_step in H.
    destruct (exists_pid _ _); inversion H; subst; split; simpl; assumption.
  - destruct (holds_result cfg s) eqn:Hh; [|discriminate].
    unfold holds_result in Hh. apply andb_true_iff in Hh. destruct Hh as [_ Hc].
    assert (Ec : caller s = C_returned) by (destruct (caller s); congruence).
    pose proof (@kill_step_kills cfg sig s Ec) as K.
    pose proof (kill_step_frame cfg sig s) as (_ & _ & T & _).
    destruct (kill_step cfg sig s) as [[x|[]] k]; simpl in *;
      inversion H; subst;
      (split; simpl; [rewrite T; exact Ht|rewrite K; intros _ ?; discriminate]).
  - destruct (holds_result cfg s); inversion H; subst; split; simpl; assumption.
Qed.

Lemma exec_registry_untouched cfg ls : forall s s',
  Inv cfg s -> registry_untouched cfg s -> exec cfg ls s = Some s' ->
  registry_untouched cfg s'.
Proof.
  induction ls as [|l ls IH]; intros s s' HI HR H; simpl in H.
  - now inversion H; subst.
  - destruct (step cfg l s) as [s1|] eqn:E; [|discriminate].
    apply (IH s1); [eapply step_inv; eauto| |exact H].
    eapply step_registry_untouched; eauto.
Qed.

(** * The cleanup list and asynchronous results *)

(** C5, as the claim has it: it fails.  The child of an asynchronous
    invocation has exited by itself, the pumps have ended and [_exec_cmd]
    has returned; nobody has called [kill]; the object is still on the
    cleanup list. *)
Lemma natural_exit_stays_registered :
  ~ (forall cfg ls s,
       asynchronous cfg = true ->
       exec cfg ls (initial cfg) = Some s ->
       engine s = E_done -> timed_out s = false ->
       ~ In (self cfg) (registry s)).
Proof.
  intros H.
  apply (H cfg_async (run_async_waited ++ run_async_finish) final_async);
    try reflexivity.
  simpl. auto.
Qed.

(** C5, amended.  An asynchronous result that was not on the cleanup list
    before is on it exactly once from the return of [async_cmd] to the
    first [kill] on it after that, and not at all before or after; the
    end of the process plays no part. *)
Theorem registered_from_return_to_kill cfg ls s :
  asynchronous cfg = true -> ~ In (self cfg) (registry0 cfg) ->
  exec cfg ls (initial cfg) = Some s ->
  count_occ Nat.eq_dec (registry s) (self cfg) =
  match caller s, kills_since_return s with
  | C_returned, 0 => 1
  | _, _ => 0
  end.
Proof.
  intros Ha Hn H. apply inv_registered; auto.
  apply reachable_inv. now exists ls.
Qed.

Lemma registered_from_return_to_kill_witness :
  count_occ Nat.eq_dec (registry final_async) (self cfg_async) = 1.
Proof.
  apply (@registered_from_return_to_kill cfg_async
           (run_async_waited ++ run_async_finish) final_async).
  - reflexivity.
  - simpl. intuition discriminate.
  - vm_compute. reflexivity.
Defined.

(** * The fields of a result during an invocation *)

(** C6, as the claim has it: it fails.  [wait()] has returned and the exit
    code is set, while [_exec_cmd] has not come to set the elapsed time. *)
Lemma returncode_set_before_total_time :
  ~ (forall cfg ls s,
       exec cfg ls (initial cfg) = Some s ->
       (total_time (obj s) <> None <-> returncode (obj s) <> None)).
Proof.
  intros H.
  destruct (H cfg_async run_async_waited waited_async eq_refl) as [_ H2].
  apply H2; [discriminate|reflexivity].
Qed.

(** C6, amended.  The exit code is unset exactly until [wait()] has
    returned, and then it is the exit status of the child; the elapsed
    time is set only when the exit code is; outside [clear_buffers] a
    step only appends to the buffers, and appends nothing once
    [_exec_cmd] has returned. *)
Theorem result_fields cfg ls s :
  exec cfg ls (initial cfg) = Some s ->
  (returncode (obj s) = None <-> waited (worker s) = false) /\
  (forall c, returncode (obj s) = Some c -> exit_status s = Some c) /\
  (total_time (obj s) <> None -> returncode (obj s) <> None) /\
  (forall l s', step cfg l s = Some s' -> l <> UserClear ->
     (exists more, stdout (obj s') = stdout (obj s) ++ more) /\
     (exists more, stderr (obj s') = stderr (obj s) ++ more) /\
     (total_time (obj s) <> None ->
      stdout (obj s') = stdout (obj s) /\ stderr (obj s') = stderr (obj s))).
Proof.
  intros H. assert (HI : Inv cfg s) by (apply reachable_inv; now exists ls).
  pose proof (inv_worker HI) as W. unfold worker_ok, unspawned, running, observed in W.
  split; [|split; [|split]].
  - destruct (worker s); simpl; break_hyps; split; congruence.
  - intros c Hc. destruct (worker s); simpl; break_hyps; congruence.
  - intros Ht. destruct (@total_time_after_pumps cfg s HI Ht) as (_ & _ & c & Hc & _).
    congruence.
  - intros l s' Hs Hl.
    destruct (@step_buffers_grow cfg l s s' HI Hs Hl) as [(mo & Ho & Hdo) (me & He & Hde)].
    split; [now exists mo|]. split; [now exists me|].
    intros Ht. destruct (@total_time_after_pumps cfg s HI Ht) as (Po & Pe & _).
    rewrite Ho, He, (Hdo Po), (Hde Pe), !app_nil_r. auto.
Qed.

Lemma result_fields_witness :
  returncode (obj final_async) <> None /\
  exit_status final_async = Some 0%Z.
Proof.
  destruct (@result_fields cfg_async (run_async_waited ++ run_async_finish)
              final_async eq_refl) as (_ & Hx & Ht & _).
  split; [apply Ht; discriminate|apply Hx; reflexivity].
Defined.

(** * [clear_buffers] *)

(** C9.  After [clear_buffers] both buffers are empty, whatever they
    held and wherever their positions were.  The holder of an
    asynchronous result can call it in every state; from then on each
    buffer, together with what is still in its pipe, holds what was in
    the pipe at the call followed by what has been written since. *)
Theorem clear_buffers_restarts cfg ls s :
  exec cfg ls (initial cfg) = Some s ->
  (forall r, stdout (clear_buffers r) = [] /\ stderr (clear_buffers r) = []) /\
  (holds_result cfg s = true ->
   exists s1,
     step cfg UserClear s = Some s1 /\
     stdout (obj s1) = [] /\ stderr (obj s1) = [] /\
     forall ls' s2,
       exec cfg ls' s1 = Some s2 -> ~ In UserClear ls' ->
       exists wo we,
         written_out s2 = written_out s ++ wo /\
         written_err s2 = written_err s ++ we /\
         stdout (obj s2) ++ out_pipe s2 = out_pipe s ++ wo /\
         stderr (obj s2) ++ err_pipe s2 = err_pipe s ++ we).
Proof.
  intros H. split; [intros r; split; reflexivity|].
  intros Hh. simpl. rewrite Hh. eexists. split; [reflexivity|].
  split; [reflexivity|]. split; [reflexivity|].
  intros ls' s2 H2 Hn.
  assert (HI : Inv cfg s) by (apply reachable_inv; now exists ls).
  assert (HI1 : Inv cfg (set_cleared true (set_obj (clear_buffers (obj s)) s))).
  { apply (@step_inv cfg UserClear s); [exact HI|]. simpl. now rewrite Hh. }
  destruct (@exec_streams_delta cfg ls' _ s2 HI1 H2 Hn) as (wo & we & A & B & C & D).
  exists wo, we. simpl in *. auto.
Qed.

Lemma clear_buffers_restarts_witness :
  stdout (obj cleared_async) = [] /\
  stdout (obj more_async) ++ out_pipe more_async = [x6f; x6b; x0a].
Proof.
  destruct (@clear_buffers_restarts cfg_async run_async_running running_async
              eq_refl) as [_ H].
  destruct (H eq_refl) as (s1 & Hs1 & Ho & _ & Hacc).
  assert (E1 : Some s1 = Some cleared_async)
    by (rewrite <- Hs1; vm_compute; reflexivity).
  inversion E1; subst s1. split; [exact Ho|].
  destruct (Hacc run_async_more more_async) as (wo & we & A & _ & C & _).
  - vm_compute. reflexivity.
  - simpl. intuition discriminate.
  - rewrite C. simpl in A. simpl. inversion A. reflexivity.
Defined.

(** * The timeout *)



(** * More on termination *)

(** What a quiet, lethal [kill] leaves of the table. *)
Lemma table_after_kill_left t root q :
  exists_pid (table_after_kill t root) q = true <->
  exists_pid t q = true /\ q <> root /\ ~ descendant t root q.
Proof.
  rewrite <- children_recursive_spec. unfold table_after_kill.
  destruct (exists_pid (fold_left os_exit _ t) root) eqn:E.
  - rewrite exists_pid_os_exit, andb_true_iff, negb_true_iff, Nat.eqb_neq,
      exists_pid_fold_exit. tauto.
  - rewrite exists_pid_fold_exit. split; [|tauto].
    intros [H1 H2]. repeat split; auto. intros ->.
    apply not_true_iff_false in E. apply E. rewrite exists_pid_fold_exit. tauto.
Qed.

(** X1.  A quiet [kill] with a signal that ends its target removes the
    tracked process and its descendants, and nothing else. *)
Theorem kill_removes_exactly_the_tree w self r sig p t reg q :
  proc r = Some p ->
  lethal w (match sig with None => default_signal w | Some sg => sg end) = true ->
  wf_table t ->
  exists_pid t (popen_pid p) = true ->
  exists_pid (procs (snd (kill w self r sig (Build_sys t reg [])))) q = true <->
  exists_pid t q = true /\ q <> popen_pid p /\ ~ descendant t (popen_pid p) q.
Proof.
  intros Hp Hl Hwf Hex. rewrite (@kill_quiet w self r sig p t reg Hp Hl Hwf Hex).
  simpl. apply table_after_kill_left.
Qed.

Lemma kill_removes_exactly_the_tree_witness :
  exists_pid (procs (snd (kill false 7 r_tree None sys_tree_quiet))) 12 = true <->
  exists_pid (procs sys_tree) 12 = true /\ 12 <> 10 /\
  ~ descendant (procs sys_tree) 10 12.
Proof.
  apply (@kill_removes_exactly_the_tree false 7 r_tree None
           {| popen_pid := 10; popen_returncode := None |}
           (procs sys_tree) [5; 7; 7] 12);
    [reflexivity|reflexivity|apply wf_sys_tree|reflexivity].
Defined.

(** X2.  Whatever happens between its system calls, [kill] only removes:
    every process in the table afterwards was there before, no object
    gains an entry on the cleanup list, and a table without duplicate pids
    stays so. *)
Theorem kill_only_removes w self r sig s :
  (forall q, exists_pid (procs (snd (kill w self r sig s))) q = true ->
             exists_pid (procs s) q = true) /\
  (forall o, count_occ Nat.eq_dec (OBJS_TO_CLEANUP (snd (kill w self r sig s))) o
             <= count_occ Nat.eq_dec (OBJS_TO_CLEANUP s) o) /\
  (wf_table (procs s) -> wf_table (procs (snd (kill w self r sig s)))).
Proof.
  destruct (stable_kill w self r sig s) as (Hc & Hp & Hw & _). auto.
Qed.

Lemma kill_only_removes_witness :
  wf_table (procs (snd (kill false 7 r_tree None sys_tree))).
Proof.
  exact (proj2 (proj2 (kill_only_removes false 7 r_tree None sys_tree)) wf_sys_tree).
Defined.


(** ** The cleanup list while processes exit *)









(** X4.  In a quiet environment a second [kill] with a signal that ends
    its target finds nothing to signal: the process table stays as the
    first call left it, and only a second entry of the object, if there
    is one, leaves the cleanup list. *)
Theorem kill_twice w self r sig p t reg :
  proc r = Some p ->
  lethal w (match sig with None => default_signal w | Some sg => sg end) = true ->
  wf_table t ->
  let s1 := snd (kill w self r sig (Build_sys t reg [])) in
  let s2 := snd (kill w self r sig s1) in
  procs s2 = procs s1 /\
  (count_occ Nat.eq_dec reg self <= 1 -> s2 = s1).
Proof.
  intros Hp Hl Hwf.
  assert (K1 : exists t1,
             kill w self r sig (Build_sys t reg []) =
             (inr tt, Build_sys t1 (registry_after_kill self reg) []) /\
             exists_pid t1 (popen_pid p) = false).
  { destruct (exists_pid t (popen_pid p)) eqn:Hex.
    - exists (table_after_kill t (popen_pid p)).
      split; [now apply kill_quiet|]. apply table_after_kill_gone. now left.
    - exists t. split; [now apply kill_quiet_gone with (p := p)|exact Hex]. }
  destruct K1 as (t1 & K1 & Hgone). simpl. rewrite K1. simpl.
  rewrite (@kill_quiet_gone w self r sig p t1 _ Hp Hgone). simpl.
  split; [reflexivity|]. intros Hc. f_equal.
  unfold registry_after_kill at 1.
  destruct (contains self (registry_after_kill self reg)) eqn:C; [|reflexivity].
  apply contains_true in C.
  apply (count_occ_In Nat.eq_dec) in C.
  rewrite count_registry_after_kill, Nat.eqb_refl in C. unfold objid in *. lia.
Qed.

Lemma kill_twice_witness :
  snd (kill false 7 r_tree None (snd (kill false 7 r_tree None sys_two))) =
  snd (kill false 7 r_tree None sys_two).
Proof.
  apply (@kill_twice false 7 r_tree None
           {| popen_pid := 10; popen_returncode := None |}
           (procs sys_two) [0; 1] eq_refl eq_refl wf_sys_two).
  simpl. lia.
Defined.

(** X5.  Whatever happens meanwhile, [cleanup] only removes: it never
    adds a process or an entry of the cleanup list. *)
Theorem cleanup_only_removes w heap s :
  (forall q, exists_pid (procs (snd (cleanup w heap s))) q = true ->
             exists_pid (procs s) q = true) /\
  (forall o, count_occ Nat.eq_dec (OBJS_TO_CLEANUP (snd (cleanup w heap s))) o
             <= count_occ Nat.eq_dec (OBJS_TO_CLEANUP s) o).
Proof.
  assert (H : stable shrinks (cleanup w heap)).
  { unfold cleanup.
    apply stable_bind; [apply shrinks_trans|intros s0; apply shrinks_refl|].
    intros l. apply stable_for_each; [apply shrinks_refl|apply shrinks_trans|].
    intros o. apply stable_kill. }
  destruct (H s) as (Hc & Hp & _). auto.
Qed.


(** * [is_running] *)

(** X6.  On POSIX [is_running] never raises.  Without a process it
    answers [False] without asking the system; with one, and nothing
    happening meanwhile, it answers whether the tracked pid is in the
    process table, and changes nothing. *)
Theorem is_running_posix r s :
  (exists b, fst (is_running false r s) = inr b) /\
  (proc r = None -> is_running false r s = (inr false, s)) /\
  (forall p, proc r = Some p -> env s = [] ->
             is_running false r s = (inr (exists_pid (procs s) (popen_pid p)), s)).
Proof.
  unfold is_running. destruct (proc r) as [p|].
  - split; [|split; [discriminate|]].
    + unfold try_except, bind, os_getpgid, bind.
      destruct (env_step s) as [[e|[]] s1] eqn:E1.
      * pose proof (env_step_returns s) as R. rewrite E1 in R. discriminate.
      * destruct (exists_pid (procs s1) (popen_pid p)); simpl; eauto.
    + intros p0 Hp He. inversion Hp; subst p0.
      unfold try_except, bind, os_getpgid, bind, env_step. rewrite He.
      destruct (exists_pid (procs s) (popen_pid p)); reflexivity.
  - split; [now exists false|]. split; [reflexivity|discriminate].
Qed.

Lemma is_running_posix_witness :
  is_running false r_tree sys_tree_quiet = (inr true, sys_tree_quiet) /\
  is_running false (CLIResponse_init "true"%string None None) sys_tree
  = (inr false, sys_tree).
Proof.
  destruct (is_running_posix r_tree sys_tree_quiet) as (_ & _ & H1).
  destruct (is_running_posix (CLIResponse_init "true"%string None None) sys_tree)
    as (_ & H2 & _).
  split; [exact (H1 _ eq_refl eq_refl)|exact (H2 eq_refl)].
Defined.

(** X7.  On Windows [is_running] raises [AttributeError] as soon as a
    process is attached: [os.getpgid] does not exist there. *)
Theorem is_running_windows r s :
  proc r <> None -> is_running true r s = (inl AttributeError, s).
Proof.
  unfold is_running. destruct (proc r); [reflexivity|congruence].
Qed.

Lemma is_running_windows_witness :
  is_running true r_tree sys_tree = (inl AttributeError, sys_tree).
Proof. apply is_running_windows. discriminate. Defined.

(** * Buffers *)

(** X8.  [clear_buffers] racing with a pump: a line written between
    [seek(0)] and [truncate()] is kept, and the buffer ends up as if it
    had been cleared first and written to afterwards. *)
Theorem clear_keeps_racing_line line b :
  line <> [] ->
  BytesIO.truncate (BytesIO.write line (BytesIO.seek 0 b)) =
  BytesIO.write line (BytesIO.truncate (BytesIO.seek 0 b)) /\
  BytesIO.getvalue (BytesIO.truncate (BytesIO.write line (BytesIO.seek 0 b))) = line.
Proof.
  intros Hn. destruct line as [|x line]; [congruence|].
  unfold BytesIO.truncate, BytesIO.write, BytesIO.seek, BytesIO.getvalue.
  cbn [BytesIO.data BytesIO.pos firstn repeat Nat.sub app skipn Nat.add length].
  rewrite firstn_app, firstn_all, Nat.sub_diag. cbn [firstn].
  rewrite !app_nil_r. split; reflexivity.
Qed.

Lemma clear_keeps_racing_line_witness :
  BytesIO.getvalue
    (BytesIO.truncate
       (BytesIO.write hi (BytesIO.seek 0 (BytesIO.mk [x61; x62; x63; x64; x65] 5))))
  = hi.
Proof. apply clear_keeps_racing_line. discriminate. Defined.


(** * The pumps *)

Lemma pump_out_drains n : forall cfg s,
  length (out_pipe s) < n ->
  Inv cfg s -> tout s = P_reading -> os_procs s = [] ->
  exists k s',
    exec cfg (repeat (Pump Stdout) k) s = Some s' /\
    k <= S (length (out_pipe s)) /\
    tout s' = P_done /\ out_pipe s' = [] /\
    stdout (obj s') = stdout (obj s) ++ out_pipe s /\
    stderr (obj s') = stderr (obj s) /\ err_pipe s' = err_pipe s.
Proof.
  induction n as [|n IH]; intros cfg s Hlen HI Ht Hps; [lia|].
  destruct (readline_eof (out_pipe s)) as (line & rest & R).
  pose proof R as R'. apply readline_spec in R'. destruct R' as [Hp Hnil].
  assert (Hstep : pump_step Stdout s =
                  match line with
                  | [] => Some (set_tout P_done s)
                  | _ =>
                      Some (set_out_pipe rest
                              (set_obj (with_bufs
                                          (BytesIO.write line (stdout_buf (obj s)))
                                          (stderr_buf (obj s)) (obj s)) s))
                  end).
  { unfold pump_step, pipes_closed. rewrite Ht, Hps, R. reflexivity. }
  destruct line as [|b line].
  - destruct (Hnil eq_refl) as [E _].
    exists 1, (set_tout P_done s). cbn [repeat exec step]. rewrite Hstep.
    repeat split; auto; try lia. now rewrite E, app_nil_r.
  - set (s1 := set_out_pipe rest
                 (set_obj (with_bufs (BytesIO.write (b :: line) (stdout_buf (obj s)))
                                     (stderr_buf (obj s)) (obj s)) s)) in *.
    assert (HI1 : Inv cfg s1) by (apply (@step_inv cfg (Pump Stdout) s); auto).
    assert (Hl1 : length (out_pipe s1) < n).
    { simpl. rewrite Hp, length_app in Hlen. simpl in Hlen. lia. }
    destruct (IH cfg s1 Hl1 HI1 Ht Hps) as (k & s' & Hex & Hk & Hd & He & Ho & Hse & Hpe).
    exists (S k), s'. cbn [repeat exec step]. rewrite Hstep.
    split; [exact Hex|]. split.
    { simpl in Hk. rewrite Hp, length_app. simpl. lia. }
    split; [exact Hd|]. split; [exact He|]. split; [|split; assumption].
    rewrite Ho. unfold s1, stdout, BytesIO.getvalue. cbn -[BytesIO.write].
    destruct (@write_at_end (b :: line) (stdout_buf (obj s)) (inv_out_end HI)) as [-> _].
    now rewrite Hp, app_assoc.
Qed.

(** X9.  [read_pipe] at end of file: once every process holding the pipe
    is gone, the pump of [stdout] ends after at most one [readline] per
    byte left in the pipe and one more, and it has appended exactly what
    was left in the pipe to the buffer, in order; [stderr] is not
    touched. *)
Theorem read_pipe_drains cfg ls s :
  exec cfg ls (initial cfg) = Some s ->
  tout s = P_reading -> os_procs s = [] ->
  exists k s',
    exec cfg (repeat (Pump Stdout) k) s = Some s' /\
    k <= S (length (out_pipe s)) /\
    tout s' = P_done /\ out_pipe s' = [] /\
    stdout (obj s') = stdout (obj s) ++ out_pipe s /\
    stderr (obj s') = stderr (obj s) /\ err_pipe s' = err_pipe s.
Proof.
  intros H. apply (@pump_out_drains (S (length (out_pipe s)))); [lia|].
  apply reachable_inv. now exists ls.
Qed.

Lemma read_pipe_drains_witness :
  exists k s',
    exec cfg_async (repeat (Pump Stdout) k) waited_async = Some s' /\
    k <= S (length (out_pipe waited_async)) /\
    tout s' = P_done /\ out_pipe s' = [] /\
    stdout (obj s') = stdout (obj waited_async) ++ out_pipe waited_async /\
    stderr (obj s') = stderr (obj waited_async) /\
    err_pipe s' = err_pipe waited_async.
Proof.
  apply (@read_pipe_drains cfg_async run_async_waited waited_async); reflexivity.
Defined.

(** * What the callers can rely on *)

(** X10.  [_exec_cmd] returns only when every process that held the
    pipes is gone and both pipes are drained: a child left in the
    background keeps [exec_cmd] waiting. *)
Theorem returns_after_pipes_closed cfg ls s :
  exec cfg ls (initial cfg) = Some s ->
  engine s = E_done ->
  os_procs s = [] /\ out_pipe s = [] /\ err_pipe s = [].
Proof.
  intros H Ee. assert (HI : Inv cfg s) by (apply reachable_inv; now exists ls).
  assert (Ht : total_time (obj s) <> None) by now apply (inv_total_time HI).
  destruct (@total_time_after_pumps cfg s HI Ht) as (Po & Pe & _).
  destruct (inv_tout HI Po) as [Hop Hps]. destruct (inv_terr HI Pe) as [Hep _].
  auto.
Qed.

Lemma returns_after_pipes_closed_witness :
  os_procs final_timeout = [] /\ out_pipe final_timeout = [] /\
  err_pipe final_timeout = [].
Proof.
  apply (@returns_after_pipes_closed cfg_timeout run_timeout final_timeout);
    reflexivity.
Defined.

(** X11.  [async_cmd] never raises, and the object it returns has a
    process attached; [exec_cmd] returns only after [_exec_cmd] has, with
    the elapsed time set. *)
Theorem what_the_caller_gets cfg ls s :
  exec cfg ls (initial cfg) = Some s ->
  (asynchronous cfg = true ->
   (forall e, caller s <> C_raised e) /\
   (caller s = C_returned -> proc (obj s) <> None)) /\
  (asynchronous cfg = false -> caller s = C_returned ->
   engine s = E_done /\ total_time (obj s) <> None /\ proc (obj s) <> None).
Proof.
  intros H. assert (HI : Inv cfg s) by (apply reachable_inv; now exists ls).
  pose proof (inv_caller HI) as C. unfold caller_ok in C. split.
  - intros Ha. split.
    + intros e Hc. rewrite Hc in C. destruct C as [C _]. congruence.
    + intros Hc. rewrite Hc, Ha in C. tauto.
  - intros Ha Hc. rewrite Hc, Ha in C. destruct C as [_ Ee].
    assert (Ht : total_time (obj s) <> None) by now apply (inv_total_time HI).
    split; [exact Ee|]. split; [exact Ht|].
    pose proof (inv_engine HI) as E. unfold engine_ok in E. rewrite Ee in E.
    pose proof (inv_worker HI) as W. unfold worker_ok in W. rewrite E in W.
    destruct W as ((p & c & Hp & _) & _). congruence.
Qed.

Lemma what_the_caller_gets_witness :
  proc (obj final_async) <> None /\ total_time (obj final_sync) <> None.
Proof.
  destruct (@what_the_caller_gets cfg_async (run_async_waited ++ run_async_finish)
              final_async eq_refl) as [H1 _].
  destruct (@what_the_caller_gets cfg_sync run_sync final_sync eq_refl) as [_ H2].
  split; [apply (H1 eq_refl); reflexivity|apply (H2 eq_refl eq_refl)].
Defined.


(** * Timing *)

Lemma kill_step_timing cfg sig s :
  timing_view (snd (kill_step cfg sig s)) = timing_view s.
Proof.
  unfold kill_step. destruct (kill _ _ _ _ _) as [r w]. reflexivity.
Qed.

(** Steps of the other threads and of the environment leave the clock and
    the engine alone, and never restart a finished [target]. *)
Lemma step_timing_frame cfg l s s' :
  step cfg l s = Some s' ->
  match l with
  | Engine | Tick | Caller => True
  | _ =>
      timing_view s' = timing_view s /\
      (finished (worker s') = false -> finished (worker s) = false)
  end.
Proof.
  intros H. destruct l; simpl in H; try exact I.
  - unfold spawn_step in H. destruct (worker s) eqn:Ew; try discriminate.
    destruct r; [destruct (_ || _); [discriminate|]|];
      inversion H; subst; split; reflexivity.
  - unfold target_step in H.
    destruct (worker s) eqn:Ew; try discriminate;
      [| |destruct (exit_status s); [destruct (proc (obj s))|]
       |destruct (tout s)|destruct (terr s)];
      inversion H; subst; split; reflexivity.
  - unfold pump_step in H.
    destruct st; [destruct (tout s)|destruct (terr s)]; try discriminate;
      destruct (readline _ _) as [[[|b line] rest]|];
      inversion H; subst; split; auto.
  - unfold write_step in H. destruct (exists_pid _ _); [|discriminate].
    destruct st; inversion H; subst; split; auto.
  - unfold fork_step in H.
    match type of H with (if ?b then _ else _) = _ => destruct b end;
      inversion H; subst; split; auto.
  - unfold exit_step in H.
    destruct (exists_pid _ _); inversion H; subst; split; auto.
  - destruct (holds_result cfg s); [|discriminate].
    pose proof (kill_step_timing cfg sig s) as K.
    pose proof (kill_step_worker cfg sig s) as Kw.
    destruct (kill_step cfg sig s) as [[x|[]] k]; simpl in *;
      inversion H; subst; (split; [exact K|simpl; now rewrite Kw]).
  - destruct (holds_result cfg s); inversion H; subst; split; auto.
Qed.

Lemma timing_ok_initial cfg : timing_ok cfg (initial cfg).
Proof.
  unfold timing_ok. simpl. repeat split; try discriminate; try lia.
Qed.

Lemma timing_ok_frame cfg s s' :
  timing_ok cfg s ->
  timing_view s' = timing_view s ->
  (finished (worker s') = false -> finished (worker s) = false) ->
  timing_ok cfg s'.
Proof.
  unfold timing_ok, timing_view. intros (H1 & H2 & H3 & H4 & H5 & H6) E Hf.
  inversion E as [[Ee Ec Es Ed Et Ett]].
  rewrite Ee, Ec, Es, Ed, Et, Ett. repeat split; auto.
  - apply H5; assumption.
  - apply H5; assumption.
  - now apply H6.
  - now apply H6.
Qed.

Lemma step_timing_ok cfg l s s' :
  Inv cfg s -> timing_ok cfg s -> step cfg l s = Some s' -> timing_ok cfg s'.
Proof.
  intros HI HT H. pose proof (step_timing_frame cfg l s H) as Fr.
  destruct l; cbn beta iota in Fr;
    try match type of Fr with
        | _ /\ _ => destruct Fr as [Fv Ff]; exact (timing_ok_frame HT Fv Ff)
        end.
  - (* the caller *)
    clear Fr. simpl in H. unfold caller_step in H.
    pose proof (inv_caller HI) as C. unfold caller_ok in C.
    destruct (caller s) eqn:Ec; try discriminate.
    + destruct C as (Ee & _).
      assert (Htt : total_time (obj s) = None).
      { destruct (total_time (obj s)) eqn:T; [|reflexivity].
        assert (X : engine s = E_done) by (apply (inv_total_time HI); congruence).
        congruence. }
      destruct HT as (H1 & H2 & H3 & H4 & H5 & H6). rewrite Ee in *.
      destruct (asynchronous cfg); inversion H; subst; rewrite Htt in *;
        timing_fin.
    + destruct (engine s); inversion H; subst; exact HT.
    + destruct (proc (obj s)); inversion H; subst; exact HT.
    + inversion H; subst; exact HT.
  - (* _exec_cmd *)
    clear Fr. simpl in H. unfold engine_step in H.
    pose proof (inv_engine HI) as E. unfold engine_ok in E.
    assert (Htt : engine s <> E_done -> total_time (obj s) = None).
    { intros Hn. destruct (total_time (obj s)) eqn:T; [|reflexivity].
      exfalso. apply Hn. apply (inv_total_time HI). congruence. }
    destruct HT as (H1 & H2 & H3 & H4 & H5 & H6).
    destruct (engine s) eqn:Ee; try discriminate; simpl in *;
      specialize (Htt ltac:(discriminate)).
    + (* E_start *) inversion H; subst. timing_fin.
    + (* E_launch *)
      destruct (timeout cfg) eqn:Et; inversion H; subst; timing_fin.
    + (* E_target *)
      destruct E as [Et _].
      destruct (worker s); inversion H; subst; timing_fin.
    + (* E_join_timeout *)
      destruct (finished (worker s) || (deadline s <=? clock s)) eqn:Ej; [|discriminate].
      inversion H; subst. timing_fin.
    + (* E_is_alive *)
      destruct (finished (worker s)) eqn:Ef; inversion H; subst; timing_fin.
    + (* E_kill *)
      pose proof (kill_step_timing cfg None s) as K.
      pose proof (kill_step_worker cfg None s) as Kw.
      destruct (kill_step cfg None s) as [[x|[]] k]; simpl in *;
        unfold timing_view in K; inversion K as [[Ke Kc Ks Kd Kt Ktt]];
        inversion H; subst; unfold timing_ok; simpl;
        rewrite Kc, Ks, Kd, Ktt; timing_fin.
    + (* E_join *)
      destruct (finished (worker s)); inversion H; subst; timing_fin.
    + (* E_returncode *)
      destruct (proc (obj s)); inversion H; subst; timing_fin.
    + (* E_total_time *)
      inversion H; subst. timing_fin.
  - (* the clock *)
    clear Fr. simpl in H. inversion H; subst.
    destruct HT as (H1 & H2 & H3 & H4 & H5 & H6).
    timing_fin.
Qed.

Lemma exec_timing_ok cfg ls : forall s s',
  Inv cfg s -> timing_ok cfg s -> exec cfg ls s = Some s' -> timing_ok cfg s'.
Proof.
  induction ls as [|l ls IH]; intros s s' HI HT H; simpl in H.
  - now inversion H; subst.
  - destruct (step cfg l s) as [s1|] eqn:E; [|discriminate].
    apply (IH s1); [eapply step_inv; eauto| |exact H].
    eapply step_timing_ok; eauto.
Qed.

(** X12.  The timeout never fires early: when [_exec_cmd] has killed, at
    least [timeout] ticks have passed since it took its start time; the
    elapsed time it reports is never more than the time that has passed,
    and not less than the timeout when the timeout fired. *)
Theorem timeout_not_early cfg ls s :
  exec cfg ls (initial cfg) = Some s ->
  (timed_out s = true ->
   exists t, timeout cfg = Some t /\ start s + t <= clock s) /\
  (forall d, total_time (obj s) = Some d ->
     start s + d <= clock s /\
     (timed_out s = true -> exists t, timeout cfg = Some t /\ t <= d)).
Proof.
  intros H.
  assert (HT : timing_ok cfg s)
    by (eapply exec_timing_ok; [apply Inv_initial|apply timing_ok_initial|exact H]).
  assert (HR : registry_untouched cfg s)
    by (eapply exec_registry_untouched;
        [apply Inv_initial|apply registry_untouched_initial|exact H]).
  destruct HT as (H1 & H2 & H3 & H4 & H5 & H6). destruct HR as [Hto _].
  assert (K : timed_out s = true ->
              exists t, timeout cfg = Some t /\ start s + t <= deadline s /\
                        deadline s <= clock s).
  { intros T. destruct (H5 T) as [J D]. specialize (Hto T).
    destruct (timeout cfg) as [t|] eqn:Et; [|congruence].
    exists t. split; [reflexivity|]. split; [now apply H2|exact D]. }
  split.
  - intros T. destruct (K T) as (t & Et & A & B). exists t. split; [exact Et|lia].
  - intros d Hd. destruct (H6 d Hd) as [A B]. split; [exact A|].
    intros T. destruct (K T) as (t & Et & C & D). exists t.
    split; [exact Et|]. specialize (B T). lia.
Qed.

Lemma timeout_not_early_witness :
  exists t, timeout cfg_timeout = Some t /\ t <= 2.
Proof.
  destruct (@timeout_not_early cfg_timeout run_timeout final_timeout eq_refl)
    as [_ H].
  destruct (H 2 eq_refl) as [_ K]. exact (K eq_refl).
Defined.


(** * The process table of an invocation *)

Lemma wf_table_app_new t e :
  wf_table t -> exists_pid t (fst e) = false -> wf_table (t ++ [e]).
Proof.
  unfold wf_table. intros Hwf Hn. rewrite map_app. simpl.
  apply NoDup_app; [assumption|apply NoDup_cons; [intros []|constructor]|].
  intros a Ha [<-|[]]. apply exists_pid_true in Ha. congruence.
Qed.

Lemma kill_step_wf cfg sig s :
  wf_table (os_procs s) -> wf_table (os_procs (snd (kill_step cfg sig s))).
Proof.
  intros Hwf. unfold kill_step.
  pose proof (stable_kill (is_windows cfg) (self cfg) (obj s) sig
                (Build_sys (os_procs s) (registry s) [])) as (_ & _ & Hw & _).
  destruct (kill _ _ _ _ _) as [r w]. simpl in *. auto.
Qed.

Lemma step_wf cfg l s s' :
  wf_table (os_procs s) -> step cfg l s = Some s' -> wf_table (os_procs s').
Proof.
  intros Hwf H. destruct l; simpl in H.
  - unfold caller_step in H.
    destruct (caller s); try discriminate;
      [destruct (asynchronous cfg)|destruct (engine s)|destruct (proc (obj s))|];
      inversion H; subst; exact Hwf.
  - unfold engine_step in H.
    pose proof (@kill_step_wf cfg None s Hwf) as K.
    destruct (engine s); try discriminate;
      repeat match type of H with
             | context [match ?x with _ => _ end] => destruct x eqn:?; try discriminate
             | context [if ?x then _ else _] => destruct x eqn:?; try discriminate
             end; inversion H; subst; simpl in *; auto.
  - unfold spawn_step in H. destruct (worker s); try discriminate.
    destruct r as [p|]; [|inversion H; subst; exact Hwf].
    destruct (exists_pid (os_procs s) p) eqn:Hx; [discriminate|].
    destruct (_ || _); [discriminate|]. inversion H; subst. simpl.
    now apply wf_table_app_new.
  - unfold target_step in H.
    destruct (worker s); try discriminate;
      [| |destruct (exit_status s); [destruct (proc (obj s))|]
       |destruct (tout s)|destruct (terr s)];
      inversion H; subst; exact Hwf.
  - unfold pump_step in H.
    destruct st; [destruct (tout s)|destruct (terr s)]; try discriminate;
      destruct (readline _ _) as [[[|b line] rest]|];
      inversion H; subst; exact Hwf.
  - inversion H; subst; exact Hwf.
  - unfold write_step in H. destruct (exists_pid _ _); [|discriminate].
    destruct st; inversion H; subst; exact Hwf.
  - unfold fork_step in H.
    destruct (exists_pid (os_procs s) p); [|discriminate].
    destruct (exists_pid (os_procs s) q) eqn:Hq; [discriminate|].
    match type of H with (if ?b then _ else _) = _ => destruct b end;
      [|discriminate].
    inversion H; subst. simpl. now apply wf_table_app_new.
  - unfold exit_step in H.
    destruct (exists_pid _ _); inversion H; subst. simpl. now apply wf_os_exit.
  - destruct (holds_result cfg s); [|discriminate].
    pose proof (@kill_step_wf cfg sig s Hwf) as K.
    destruct (kill_step cfg sig s) as [[x|[]] k]; inversion H; subst; exact K.
  - destruct (holds_result cfg s); inversion H; subst; exact Hwf.
Qed.

Lemma reachable_wf cfg ls : forall s s',
  wf_table (os_procs s) -> exec cfg ls s = Some s' -> wf_table (os_procs s').
Proof.
  induction ls as [|l ls IH]; intros s s' Hwf H; simpl in H.
  - now inversion H; subst.
  - destruct (step cfg l s) as [s1|] eqn:E; [|discriminate].
    apply (IH s1); [eapply step_wf; eauto|exact H].
Qed.

(** X13.  A [kill] during which no process of the invocation exits or
    forks by itself, which is how the engine takes every [kill]: on a
    result whose process is running, with a signal that ends its target,
    it returns, the exit status of the child becomes the signal (negated
    on POSIX), and of the processes of the invocation exactly those
    outside the tree of the child are left. *)
Theorem kill_ends_the_invocation cfg ls s sig p :
  exec cfg ls (initial cfg) = Some s ->
  tracked (obj s) = Some p -> exists_pid (os_procs s) p = true ->
  lethal (is_windows cfg)
    (match sig with None => default_signal (is_windows cfg) | Some sg => sg end)
  = true ->
  kill (is_windows cfg) (self cfg) (obj s) sig
    {| procs := os_procs s; OBJS_TO_CLEANUP := registry s; env := [] |} =
  (inr tt,
   {| procs := os_procs (snd (kill_step cfg sig s));
      OBJS_TO_CLEANUP := registry (snd (kill_step cfg sig s));
      env := [] |}) /\
  fst (kill_step cfg sig s) = inr tt /\
  exit_status (snd (kill_step cfg sig s)) =
  Some (killed_returncode (is_windows cfg)
          (match sig with None => default_signal (is_windows cfg) | Some sg => sg end)) /\
  forall q, exists_pid (os_procs (snd (kill_step cfg sig s))) q = true <->
            exists_pid (os_procs s) q = true /\ q <> p /\
            ~ descendant (os_procs s) p q.
Proof.
  intros H Ht Hex Hl.
  assert (Hwf : wf_table (os_procs s)).
  { eapply reachable_wf; [|exact H]. simpl. constructor. }
  unfold tracked in Ht. destruct (proc (obj s)) as [x|] eqn:Hp; [|discriminate].
  simpl in Ht. inversion Ht; subst p.
  pose proof (@kill_quiet (is_windows cfg) (self cfg) (obj s) sig x
                (os_procs s) (registry s) Hp Hl Hwf Hex) as K.
  unfold kill_step, tracked. rewrite Hp. rewrite K. simpl.
  rewrite Hex.
  rewrite (@table_after_kill_gone (os_procs s) (popen_pid x) (popen_pid x))
    by (now left).
  simpl. split; [reflexivity|]. split; [reflexivity|]. split; [reflexivity|].
  intros q. apply table_after_kill_left.
Qed.

Lemma kill_ends_the_invocation_witness :
  exit_status (snd (kill_step cfg_async None running_async)) = Some (-9)%Z /\
  os_procs (snd (kill_step cfg_async None running_async)) = [].
Proof.
  destruct (@kill_ends_the_invocation cfg_async run_async_running running_async
              None 10 eq_refl eq_refl eq_refl eq_refl) as (_ & _ & Hx & _).
  split; [exact Hx|reflexivity].
Defined.

(** * Progress *)

Lemma own_progress cfg s :
  Inv cfg s -> proc (obj s) <> None -> os_procs s = [] -> engine s <> E_done ->
  exists l s',
    own_step l = true /\ step cfg l s = Some s' /\
    remaining s' < remaining s /\
    proc (obj s') <> None /\ os_procs s' = [].
Proof.
  intros HI Hp Hps He.
  pose proof (inv_worker HI) as W. unfold worker_ok, unspawned, running, observed in W.
  pose proof (inv_engine HI) as E. unfold engine_ok in E.
  destruct (worker s) eqn:Ew.
  - destruct W as (W & _). contradiction.
  - destruct W as (W & _). contradiction.
  - (* T_pump_out *)
    destruct W as (_ & Ho & _).
    exists Target. eexists. split; [reflexivity|]. simpl. unfold target_step.
    rewrite Ew. split; [reflexivity|]. unfold remaining. simpl.
    rewrite Ew, Ho. simpl. repeat split; auto; try lia; try discriminate.
  - (* T_pump_err *)
    destruct W as (_ & _ & Hte).
    exists Target. eexists. split; [reflexivity|]. simpl. unfold target_step.
    rewrite Ew. split; [reflexivity|]. unfold remaining. simpl.
    rewrite Ew, Hte. simpl. repeat split; auto; try lia; try discriminate.
  - (* T_wait *)
    destruct W as ([(p & Hpp & _) _] & _).
    assert (Hx : exit_status s <> None).
    { apply (inv_status HI (p := popen_pid p)).
      - unfold tracked. now rewrite Hpp.
      - now rewrite Hps. }
    destruct (exit_status s) as [c|] eqn:Ex; [|congruence].
    exists Target. eexists. split; [reflexivity|]. simpl. unfold target_step.
    rewrite Ew, Ex, Hpp. split; [reflexivity|]. unfold remaining. simpl.
    rewrite Ew. simpl. repeat split; auto; try lia; try discriminate.
  - (* T_join_out *)
    destruct W as (_ & Hto & _).
    destruct (tout s) eqn:Et; [congruence| |].
    + destruct (readline_eof (out_pipe s)) as (line & rest & R).
      pose proof R as R'. apply readline_spec in R'. destruct R' as [Hpipe _].
      destruct line as [|b line];
        exists (Pump Stdout); eexists; (split; [reflexivity|]); simpl;
        unfold pump_step, pipes_closed; rewrite Et, Hps, R;
        (split; [reflexivity|]); unfold remaining; simpl.
      * rewrite Et. simpl. repeat split; auto; try lia.
      * rewrite Hpipe, length_app. simpl. repeat split; auto; try lia.
    + exists Target. eexists. split; [reflexivity|]. simpl. unfold target_step.
      rewrite Ew, Et. split; [reflexivity|]. unfold remaining. simpl.
      rewrite Ew. simpl. repeat split; auto; try lia; try discriminate.
  - (* T_join_err *)
    destruct W as (_ & _ & Hte).
    destruct (terr s) eqn:Et; [congruence| |].
    + destruct (readline_eof (err_pipe s)) as (line & rest & R).
      pose proof R as R'. apply readline_spec in R'. destruct R' as [Hpipe _].
      destruct line as [|b line];
        exists (Pump Stderr); eexists; (split; [reflexivity|]); simpl;
        unfold pump_step, pipes_closed; rewrite Et, Hps, R;
        (split; [reflexivity|]); unfold remaining; simpl.
      * rewrite Et. simpl. repeat split; auto; try lia.
      * rewrite Hpipe, length_app. simpl. repeat split; auto; try lia.
    + exists Target. eexists. split; [reflexivity|]. simpl. unfold target_step.
      rewrite Ew, Et. split; [reflexivity|]. unfold remaining. simpl.
      rewrite Ew. simpl. repeat split; auto; try lia; try discriminate.
  - (* T_done: _exec_cmd goes on *)
    exists Engine. simpl. unfold engine_step.
    destruct (engine s) eqn:Ee; try discriminate; try congruence;
      try (apply proj1 in E; discriminate E);
      try rewrite Ew; simpl.
    + eexists. split; [reflexivity|]. split; [reflexivity|].
      unfold remaining. simpl. rewrite Ee. simpl. repeat split; auto; try lia.
    + eexists. split; [reflexivity|]. split; [reflexivity|].
      unfold remaining. simpl. rewrite Ee. simpl. repeat split; auto; try lia.
    + eexists. split; [reflexivity|]. split; [reflexivity|].
      unfold remaining. simpl. rewrite Ee. simpl. repeat split; auto; try lia.
    + destruct (kill_step_effect cfg None s) as (t' & K & Hsub & _).
      rewrite K. eexists. split; [reflexivity|]. split; [reflexivity|].
      unfold remaining. simpl. rewrite Ee. simpl.
      repeat split; auto; try lia. now apply (@exists_pid_nil_of_sub t' (os_procs s) Hsub).
    + eexists. split; [reflexivity|]. split; [reflexivity|].
      unfold remaining. simpl. rewrite Ee. simpl. repeat split; auto; try lia.
    + destruct (proc (obj s)) as [p|] eqn:Hpp; [|congruence].
      eexists. split; [reflexivity|]. split; [reflexivity|].
      unfold remaining. simpl. rewrite Ee. simpl.
      repeat split; auto; try lia. rewrite Hpp. discriminate.
    + eexists. split; [reflexivity|]. split; [reflexivity|].
      unfold remaining. simpl. rewrite Ee. simpl. repeat split; auto; try lia.
  - destruct W as (_ & W & _). contradiction.
Qed.

Lemma engine_completes n : forall cfg s,
  remaining s < n ->
  Inv cfg s -> proc (obj s) <> None -> os_procs s = [] ->
  exists ls s',
    forallb own_step ls = true /\ exec cfg ls s = Some s' /\
    engine s' = E_done /\ written_out s' = written_out s /\
    written_err s' = written_err s.
Proof.
  induction n as [|n IH]; intros cfg s Hn HI Hp Hps; [lia|].
  destruct (engine s) eqn:Ee;
    try (destruct (@own_progress cfg s HI Hp Hps) as (l & s1 & Ho & Hs & Hr & Hp1 & Hps1);
         [congruence|];
         assert (HI1 : Inv cfg s1) by (eapply step_inv; eauto);
         destruct (IH cfg s1 ltac:(lia) HI1 Hp1 Hps1) as (ls & s' & Hall & Hex & Hd & Hwo & Hwe);
         exists (l :: ls), s'; simpl; rewrite Ho, Hs;
         apply step_stream_effect in Hs;
         destruct l; try discriminate; try destruct st; simpl in Hs;
         try (destruct Hs as (_ & line & rest & _ & Hs));
         unfold streams in Hs; inversion Hs;
         repeat split; auto; congruence).
  exists [], s. simpl. auto.
Qed.

(** X14.  Once a child has been spawned and it and everything that held
    its pipes are gone, the invocation completes by the steps of the
    program alone: the pumps drain the pipes, [target] ends, [_exec_cmd]
    returns and the caller gets the object, with every byte that was
    written in the buffers. *)
Theorem invocation_completes cfg ls s :
  exec cfg ls (initial cfg) = Some s ->
  proc (obj s) <> None -> os_procs s = [] -> cleared s = false ->
  exists ls' s',
    forallb own_step ls' = true /\ exec cfg ls' s = Some s' /\
    caller s' = C_returned /\ engine s' = E_done /\
    stdout (obj s') = written_out s /\ stderr (obj s') = written_err s.
Proof.
  intros H Hp Hps Hcl.
  assert (HI : Inv cfg s) by (apply reachable_inv; now exists ls).
  destruct (@engine_completes (S (remaining s)) cfg s ltac:(lia) HI Hp Hps)
    as (l1 & s1 & Hall & Hex & Hd & Hwo & Hwe).
  assert (HI1 : Inv cfg s1) by (eapply exec_inv; eauto).
  assert (Hcl1 : cleared s1 = false).
  { clear - Hall Hex Hcl. revert s Hex Hcl.
    induction l1 as [|l l1 IH]; intros s Hex Hcl; simpl in *.
    - inversion Hex; subst; exact Hcl.
    - apply andb_true_iff in Hall. destruct Hall as [Hl Hall].
      destruct (step cfg l s) as [s2|] eqn:E; [|discriminate].
      apply (IH Hall s2 Hex).
      destruct l; try discriminate; simpl in E.
      + unfold caller_step in E.
        destruct (caller s); try discriminate;
          [destruct (asynchronous cfg)|destruct (engine s)|destruct (proc (obj s))|];
          inversion E; subst; exact Hcl.
      + unfold engine_step in E.
        assert (K : cleared (snd (kill_step cfg None s)) = cleared s)
          by (unfold kill_step; destruct (kill _ _ _ _ _); reflexivity).
        destruct (engine s); try discriminate;
          repeat match type of E with
                 | context [match ?x with _ => _ end] => destruct x eqn:?; try discriminate
                 | context [if ?x then _ else _] => destruct x eqn:?; try discriminate
                 end; inversion E; subst; simpl in *; congruence.
      + unfold target_step in E.
        destruct (worker s); try discriminate;
          [| |destruct (exit_status s); [destruct (proc (obj s))|]
           |destruct (tout s)|destruct (terr s)];
          inversion E; subst; exact Hcl.
      + unfold pump_step in E.
        destruct st; [destruct (tout s)|destruct (terr s)]; try discriminate;
          destruct (readline _ _) as [[[|b line] rest]|];
          inversion E; subst; exact Hcl. }
  assert (Ht : total_time (obj s1) <> None) by now apply (inv_total_time HI1).
  destruct (@total_time_after_pumps cfg s1 HI1 Ht) as (Po & Pe & c & Hrc & _).
  destruct (inv_tout HI1 Po) as [Hop _]. destruct (inv_terr HI1 Pe) as [Hep _].
  pose proof (inv_out_bytes HI1 Hcl1) as Bo. pose proof (inv_err_bytes HI1 Hcl1) as Be.
  rewrite Hop, app_nil_r in Bo. rewrite Hep, app_nil_r in Be.
  assert (Hp1 : proc (obj s1) <> None).
  { pose proof (inv_engine HI1) as E. unfold engine_ok in E. rewrite Hd in E.
    pose proof (inv_worker HI1) as W. unfold worker_ok in W. rewrite E in W.
    destruct W as ((p & c0 & Hpp & _) & _). congruence. }
  pose proof (inv_caller HI1) as C. unfold caller_ok in C.
  destruct (caller s1) eqn:Ec.
  - destruct C as [C _]. congruence.
  - (* exec_cmd *)
    exists (l1 ++ [Caller]), (set_caller C_returned s1).
    split; [rewrite forallb_app, Hall; reflexivity|].
    split; [|simpl; repeat split; congruence].
    clear - Hex Ec Hd. revert s Hex.
    induction l1 as [|l l1 IH]; intros s Hex; simpl in *.
    + inversion Hex; subst. unfold caller_step. now rewrite Ec, Hd.
    + destruct (step cfg l s); [now apply IH|discriminate].
  - (* async_cmd, polling *)
    destruct (proc (obj s1)) as [p|] eqn:Hpp; [|congruence].
    exists (l1 ++ [Caller; Caller]),
      (set_caller C_returned
         (set_registry (registry s1 ++ [self cfg]) (set_caller C_append s1))).
    split; [rewrite forallb_app, Hall; reflexivity|].
    split; [|simpl; repeat split; congruence].
    clear - Hex Ec Hpp. revert s Hex.
    induction l1 as [|l l1 IH]; intros s Hex; simpl in *.
    + inversion Hex; subst. unfold caller_step. now rewrite Ec, Hpp.
    + destruct (step cfg l s); [now apply IH|discriminate].
  - (* async_cmd, about to register *)
    exists (l1 ++ [Caller]),
      (set_caller C_returned (set_registry (registry s1 ++ [self cfg]) s1)).
    split; [rewrite forallb_app, Hall; reflexivity|].
    split; [|simpl; repeat split; congruence].
    clear - Hex Ec. revert s Hex.
    induction l1 as [|l l1 IH]; intros s Hex; simpl in *.
    + inversion Hex; subst. unfold caller_step. now rewrite Ec.
    + destruct (step cfg l s); [now apply IH|discriminate].
  - exists l1, s1. repeat split; auto; congruence.
  - destruct C as [_ C]. congruence.
Qed.

Lemma invocation_completes_witness :
  exists ls' s',
    forallb own_step ls' = true /\
    exec cfg_async ls' waited_async = Some s' /\
    caller s' = C_returned /\ engine s' = E_done /\
    stdout (obj s') = written_out waited_async /\
    stderr (obj s') = written_err waited_async.
Proof.
  apply (@invocation_completes cfg_async run_async_waited waited_async);
    [reflexivity|discriminate|reflexivity|reflexivity].
Defined.


(** * The enumeration of descendants *)

(** X15.  The list [kill] gets from [children(recursive=True)] holds
    exactly the processes from which the tracked one is reached by parent
    links, however deep the tree; all of them are in the table, and none
    is listed twice when the table has no pid twice. *)
Theorem children_recursive_complete t root :
  (forall p, In p (children_recursive t root) <-> descendant t root p) /\
  (forall p, In p (children_recursive t root) -> exists_pid t p = true) /\
  (wf_table t -> NoDup (children_recursive t root)).
Proof.
  split; [intros p; apply children_recursive_spec|].
  split; [intros p; apply children_recursive_exist|].
  apply children_recursive_NoDup.
Qed.

Lemma children_recursive_complete_witness :
  NoDup (children_recursive (procs sys_tree) 10).
Proof.
  exact (proj2 (proj2 (children_recursive_complete (procs sys_tree) 10)) wf_sys_tree).
Defined.

(** * Shutdown *)


Lemma ppid_of_os_exit t x q a :
  q <> x -> a <> x -> ppid_of t q = Some a -> ppid_of (os_exit t x) q = Some a.
Proof.
  intros Hq Ha. unfold ppid_of, os_exit.
  induction t as [|[u v] t IH]; simpl; [discriminate|].
  destruct (Nat.eqb_spec u q) as [->|Hu].
  - simpl. intros H. inversion H; subst.
    destruct (Nat.eqb_spec q x); [congruence|]. simpl.
    destruct (Nat.eqb_spec a x); [congruence|]. simpl.
    now rewrite Nat.eqb_refl.
  - intros H. destruct (negb (u =? x)); simpl; [|now apply IH].
    destruct (v =? x); simpl; destruct (Nat.eqb_spec u q); try congruence;
      now apply IH.
Qed.

Lemma ppid_of_fold_exit ds : forall t q a,
  ~ In q ds -> ~ In a ds -> ppid_of t q = Some a ->
  ppid_of (fold_left os_exit ds t) q = Some a.
Proof.
  induction ds as [|d ds IH]; intros t q a Hq Ha H; simpl in *; [exact H|].
  apply IH; [tauto|tauto|]. apply ppid_of_os_exit; auto.
Qed.

Lemma ppid_of_table_after_kill t root q a :
  q <> root -> ~ descendant t root q ->
  a <> root -> ~ descendant t root a ->
  ppid_of t q = Some a -> ppid_of (table_after_kill t root) q = Some a.
Proof.
  intros Hq Hdq Ha Hda H. unfold table_after_kill.
  assert (F : ppid_of (fold_left os_exit (children_recursive t root) t) q = Some a)
    by (apply ppid_of_fold_exit; auto; now rewrite children_recursive_spec).
  destruct (exists_pid (fold_left os_exit (children_recursive t root) t) root);
    [|exact F]. now apply ppid_of_os_exit.
Qed.

Lemma survivors_after_kill t0 t root :
  survivors t0 t -> exists_pid t root = true ->
  survivors t0 (table_after_kill t root).
Proof.
  intros (Hwf & Hsub & Hup) Hex. split; [|split].
  - unfold table_after_kill.
    destruct (exists_pid (fold_left os_exit (children_recursive t root) t) root);
      [apply wf_os_exit|]; now apply wf_fold_exit.
  - intros q Hq. apply table_after_kill_left in Hq. apply Hsub. tauto.
  - intros q a Hq Hp Ha. apply table_after_kill_left in Hq.
    destruct Hq as (Hq & Hne & Hnd).
    destruct (Hup q a Hq Hp Ha) as [Hat Hpt].
    assert (Hane : a <> root).
    { intros ->. apply Hnd. now apply descendant_child. }
    assert (Hand : ~ descendant t root a).
    { intros Hd. apply Hnd. now apply descendant_step with (q := a). }
    split.
    + apply table_after_kill_left. tauto.
    + now apply ppid_of_table_after_kill.
Qed.

Lemma survivors_miss_descendants t0 t root q :
  survivors t0 t -> exists_pid t0 root = true -> exists_pid t root = false ->
  descendant t0 root q -> exists_pid t q = false.
Proof.
  intros (_ & _ & Hup) H0 Hgone Hd.
  induction Hd as [q Hp|q q' Hp Hd IH]; apply not_true_is_false; intros Hq.
  - destruct (Hup q root Hq Hp H0) as [Hr _]. congruence.
  - assert (H0' : exists_pid t0 q' = true).
    { inversion Hd; apply exists_pid_true; eapply ppid_of_exists; eassumption. }
    destruct (Hup q q' Hq Hp H0') as [Hr _]. congruence.
Qed.

Lemma cleanup_loop_trees w heap t0 l : forall t reg,
  survivors t0 t ->
  (forall o, In o l -> proc (heap o) <> None) ->
  exists t',
    for_each l (fun o => kill w o (heap o) None) (Build_sys t reg []) =
    (inr tt,
     Build_sys t' (fold_left (fun rg o => registry_after_kill o rg) l reg) []) /\
    survivors t0 t' /\
    (forall q, exists_pid t' q = true -> exists_pid t q = true) /\
    (forall o p, In o l -> proc (heap o) = Some p ->
                 exists_pid t' (popen_pid p) = false).
Proof.
  induction l as [|o l IH]; intros t reg Hs Hproc; simpl.
  - exists t. split; [reflexivity|]. split; [exact Hs|]. split; [auto|].
    intros o p [].
  - destruct (proc (heap o)) as [p|] eqn:Hp;
      [|exfalso; apply (Hproc o); [now left|exact Hp]].
    assert (Hproc' : forall o', In o' l -> proc (heap o') <> None)
      by (intros o' Ho'; apply Hproc; now right).
    assert (K : exists t1,
               kill w o (heap o) None (Build_sys t reg []) =
               (inr tt, Build_sys t1 (registry_after_kill o reg) []) /\
               survivors t0 t1 /\
               (forall q, exists_pid t1 q = true -> exists_pid t q = true) /\
               exists_pid t1 (popen_pid p) = false).
    { destruct (exists_pid t (popen_pid p)) eqn:Hex.
      - exists (table_after_kill t (popen_pid p)). split.
        + apply kill_quiet; auto; [apply lethal_default|apply Hs].
        + split; [now apply survivors_after_kill|]. split.
          * intros q Hq. apply table_after_kill_left in Hq. tauto.
          * apply table_after_kill_gone. now left.
      - exists t. split; [now apply kill_quiet_gone with (p := p)|]. auto. }
    destruct K as (t1 & K & Hs1 & Hsub1 & Hgone1).
    destruct (IH t1 (registry_after_kill o reg) Hs1 Hproc')
      as (t2 & L & Hs2 & Hsub2 & Hgone2).
    exists t2. unfold bind. rewrite K, L.
    split; [reflexivity|]. split; [exact Hs2|]. split; [now auto|].
    intros o' p' [<-|Ho'] Hp'.
    + rewrite Hp in Hp'. inversion Hp'; subst.
      apply not_true_is_false. intros Hx. apply Hsub2 in Hx. congruence.
    + eapply Hgone2; eauto.
Qed.

(** X17.  Shutdown while nothing else happens, every object on the
    cleanup list having a process that is in the table: [cleanup]
    returns, the list is empty, and neither the tracked process of any
    listed object nor any process that descended from one is left. *)
Theorem cleanup_ends_every_tree w heap t reg :
  wf_table t ->
  (forall o, In o reg ->
             exists p, proc (heap o) = Some p /\ exists_pid t (popen_pid p) = true) ->
  cleanup w heap (Build_sys t reg []) =
  (inr tt, Build_sys (procs (snd (cleanup w heap (Build_sys t reg [])))) [] []) /\
  forall o p q,
    In o reg -> proc (heap o) = Some p ->
    q = popen_pid p \/ descendant t (popen_pid p) q ->
    exists_pid (procs (snd (cleanup w heap (Build_sys t reg [])))) q = false.
Proof.
  intros Hwf Hlive.
  assert (Hs : survivors t t) by (split; [exact Hwf|split; auto]).
  assert (Hproc : forall o, In o reg -> proc (heap o) <> None).
  { intros o Ho. destruct (Hlive o Ho) as (p & Hp & _). congruence. }
  destruct (@cleanup_loop_trees w heap t reg t reg Hs Hproc)
    as (t' & L & Hs' & _ & Hgone).
  unfold cleanup, bind. simpl. rewrite L. simpl.
  rewrite fold_registry_after_kill_self. split; [reflexivity|].
  intros o p q Ho Hp [->|Hd].
  - eapply Hgone; eauto.
  - destruct (Hlive o Ho) as (p0 & Hp0 & Hex). rewrite Hp in Hp0.
    inversion Hp0; subst p0.
    eapply survivors_miss_descendants; eauto.
Qed.

Lemma cleanup_ends_every_tree_witness :
  exists_pid (procs (snd (cleanup false heap_two sys_two))) 11 = false.
Proof.
  destruct (@cleanup_ends_every_tree false heap_two (procs sys_two) [0; 1]
              wf_sys_two) as [_ H].
  - intros o [<-|[<-|[]]]; eexists; split; reflexivity.
  - apply (H 0 {| popen_pid := 10; popen_returncode := None |} 11);
      [simpl; auto|reflexivity|].
    right. apply descendant_child. reflexivity.
Defined.
